(** * Minesweeper knowledge engine: a shallow embedding of [minesweeper.py]

    The development follows the classes [Sentence] and [MinesweeperAI] of
    the source.  Python sets of cells are finite sets ([gset]) of integer
    pairs, the knowledge base is a list of sentence values, and the two
    [while] loops take fuel.  A [for] loop over a Python set is a fold
    over the elements of the set; [set_fold_mark_mine], [set_fold_mark_safe]
    and [ingest_eq] give the results in closed form, so they do not depend
    on the order of iteration. *)

From Stdlib Require Import ZArith Lia.
From stdpp Require Import base decidable option list sets fin_sets gmap.

Open Scope Z_scope.

(** ** Cells and sentences *)

(** A cell is the tuple [(i, j)] of two Python integers. *)
Abbreviation cell := (Z * Z)%type.

(** [class Sentence]: [self.cells] and [self.count]. *)
Record Sentence : Type := mkSentence {
  cells : gset cell;
  count : Z
}.

(** [Sentence.__eq__] compares cells and count, which is Leibniz equality
    on the record. *)
#[global] Instance Sentence_eq_dec : EqDecision Sentence.
Proof. solve_decision. Defined.

(** [len(s)] of a Python set, as an integer. *)
Definition len (X : gset cell) : Z := Z.of_nat (size X).

(** [Sentence.known_mines] *)
Definition known_mines (s : Sentence) : gset cell :=
  if decide (len (cells s) = count s) then cells s else ∅.

(** [Sentence.known_safes] *)
Definition known_safes (s : Sentence) : gset cell :=
  if decide (count s = 0) then cells s else ∅.

(** [Sentence.mark_mine] *)
Definition Sentence_mark_mine (c : cell) (s : Sentence) : Sentence :=
  if decide (c ∈ cells s)
  then mkSentence (cells s ∖ {[c]}) (count s - 1)
  else s.

(** [Sentence.mark_safe] *)
Definition Sentence_mark_safe (c : cell) (s : Sentence) : Sentence :=
  if decide (c ∈ cells s)
  then mkSentence (cells s ∖ {[c]}) (count s)
  else s.

(** ** The engine state *)

(** [class MinesweeperAI]: the attributes set by [__init__]. *)
Record MinesweeperAI : Type := mkAI {
  height : Z;
  width : Z;
  moves_made : gset cell;
  mines : gset cell;
  safes : gset cell;
  knowledge : list Sentence
}.

#[global] Instance MinesweeperAI_eq_dec : EqDecision MinesweeperAI.
Proof. solve_decision. Defined.

(** [MinesweeperAI.__init__] *)
Definition init (h w : Z) : MinesweeperAI := mkAI h w ∅ ∅ ∅ [].

Definition set_moves_made (m : gset cell) (st : MinesweeperAI) : MinesweeperAI :=
  mkAI (height st) (width st) m (mines st) (safes st) (knowledge st).

Definition set_knowledge (K : list Sentence) (st : MinesweeperAI) : MinesweeperAI :=
  mkAI (height st) (width st) (moves_made st) (mines st) (safes st) K.

(** [MinesweeperAI.mark_mine]: [self.mines.add(cell)], then every held
    sentence is updated in place. *)
Definition mark_mine (c : cell) (st : MinesweeperAI) : MinesweeperAI :=
  mkAI (height st) (width st) (moves_made st)
       ({[c]} ∪ mines st) (safes st)
       (Sentence_mark_mine c <$> knowledge st).

(** [MinesweeperAI.mark_safe] *)
Definition mark_safe (c : cell) (st : MinesweeperAI) : MinesweeperAI :=
  mkAI (height st) (width st) (moves_made st)
       (mines st) ({[c]} ∪ safes st)
       (Sentence_mark_safe c <$> knowledge st).

(** ** Outcomes of the looping operations

    [Ok] is a normal return, [ValueError] is what [list.remove] raises on
    a missing element, [OutOfFuel] says the fuel given to a [while] loop
    was used up before the loop ended. *)
Inductive result (A : Type) : Type :=
  | Ok (a : A)
  | ValueError
  | OutOfFuel.
Arguments Ok {A} a.
Arguments ValueError {A}.
Arguments OutOfFuel {A}.

#[global] Instance result_bind : MBind result := λ A B k r,
  match r with
  | Ok a => k a
  | ValueError => ValueError
  | OutOfFuel => OutOfFuel
  end.

(** ** Neighbours *)

(** Python's [range(a, b)]. *)
Definition zrange (a b : Z) : list Z := seqZ a (b - a).

(** [MinesweeperAI.get_neighbours] *)
Definition get_neighbours (st : MinesweeperAI) (c : cell) : gset cell :=
  foldl (λ acc i,
    foldl (λ acc j,
      if decide ((i, j) = c) then acc
      else if decide (0 ≤ i < height st ∧ 0 ≤ j < width st)
           then {[(i, j)]} ∪ acc
           else acc)
      acc (zrange (c.2 - 1) (c.2 + 2)))
    ∅ (zrange (c.1 - 1) (c.1 + 2)).

(** ** Derivation: [MinesweeperAI.inferences] *)

(** The test [new_sentence not in self.knowledge and
    len(new_sentence.cells) > 0] and the [append] it guards. *)
Definition accept (K : list Sentence) (s : Sentence) : list Sentence :=
  if decide ((s ∉ K) ∧ (len (cells s) > 0)) then [s] else [].

(** The body of the inner loop for [a = knowledge[i]], [b = knowledge[j]]. *)
Definition infer_pair (K : list Sentence) (a b : Sentence) : list Sentence :=
  if decide (cells a ⊆ cells b)
  then accept K (mkSentence (cells b ∖ cells a) (count b - count a))
  else if decide (cells b ⊆ cells a)
  then accept K (mkSentence (cells a ∖ cells b) (count a - count b))
  else [].

Definition inferences (st : MinesweeperAI) : list Sentence :=
  let K := knowledge st in
  i ← seq 0 (length K - 1);
  j ← seq (i + 1) (length K - (i + 1));
  match K !! i, K !! j with
  | Some a, Some b => infer_pair K a b
  | _, _ => []
  end.

(** ** Propagation and cleanup: [MinesweeperAI.mines_safes] *)

(** [list.remove(x)]: drops the first element equal to [x]; [None] stands
    for the [ValueError] raised when there is none. *)
Fixpoint list_remove (x : Sentence) (l : list Sentence) : option (list Sentence) :=
  match l with
  | [] => None
  | y :: l' => if decide (y = x) then Some l' else (y ::.) <$> list_remove x l'
  end.

(** [for sentence in empty_sentences: self.knowledge.remove(sentence)] *)
Fixpoint remove_each (es K : list Sentence) : option (list Sentence) :=
  match es with
  | [] => Some K
  | e :: es' =>
      match list_remove e K with
      | Some K' => remove_each es' K'
      | None => None
      end
  end.

(** One iteration of [for sentence in self.knowledge], at index [i]; the
    sentence is read from the current state because earlier iterations
    have updated the sentences in place. *)
Definition scan_step (acc : MinesweeperAI * bool * list Sentence) (i : nat)
  : MinesweeperAI * bool * list Sentence :=
  let '(st, changes, empties) := acc in
  match knowledge st !! i with
  | None => acc
  | Some s =>
      if decide (len (cells s) = 0) then (st, changes, empties ++ [s])
      else
        let km := known_mines s in
        let ks := known_safes s in
        let st1 := set_fold mark_mine st km in
        let st2 := set_fold mark_safe st1 ks in
        (st2, changes || bool_decide (km ≠ ∅) || bool_decide (ks ≠ ∅), empties)
  end.

(** The whole [for] loop of one pass. *)
Definition scan (st : MinesweeperAI) : MinesweeperAI * bool * list Sentence :=
  foldl scan_step (st, false, []) (seq 0 (length (knowledge st))).

(** [mines_safes]: the [while(changes)] loop, one pass per unit of fuel. *)
Fixpoint mines_safes (fuel : nat) (st : MinesweeperAI) : result MinesweeperAI :=
  match fuel with
  | O => OutOfFuel
  | S fuel' =>
      let '(st1, changes, empties) := scan st in
      match remove_each empties (knowledge st1) with
      | None => ValueError
      | Some K =>
          let st2 := set_knowledge K st1 in
          if changes then mines_safes fuel' st2 else Ok st2
      end
  end.

(** ** Ingestion: [MinesweeperAI.add_knowledge] *)

(** The body of [for neighbour in neighbours], on the pair
    [(count, new_knowledge)]. *)
Definition ingest_neighbour (st : MinesweeperAI) (n : cell) (acc : Z * gset cell)
  : Z * gset cell :=
  if decide (n ∈ mines st) then (acc.1 - 1, acc.2)
  else if decide (n ∉ safes st) then (acc.1, {[n]} ∪ acc.2)
  else acc.

(** Lines 188-199: everything before the first call of [mines_safes]. *)
Definition ingest (st : MinesweeperAI) (c : cell) (cnt : Z) : MinesweeperAI :=
  let st1 := mark_safe c (set_moves_made ({[c]} ∪ moves_made st) st) in
  let neighbours := get_neighbours st1 c in
  let '(cnt', new_knowledge) :=
    set_fold (ingest_neighbour st1) (cnt, ∅) neighbours in
  if decide (len new_knowledge > 0)
  then set_knowledge (knowledge st1 ++ [mkSentence new_knowledge cnt']) st1
  else st1.

(** Lines 203-211: the loop [while(len(self.moves_made) == len(self.safes))];
    the [print] of each new sentence is output only and is left out. *)
Fixpoint derive_loop (fuel : nat) (st : MinesweeperAI) : result MinesweeperAI :=
  match fuel with
  | O => OutOfFuel
  | S fuel' =>
      if decide (len (moves_made st) = len (safes st)) then
        let new_knowledge := inferences st in
        if decide (length new_knowledge ≠ 0%nat) then
          st' ← mines_safes fuel (set_knowledge (knowledge st ++ new_knowledge) st);
          derive_loop fuel' st'
        else Ok st
      else Ok st
  end.

Definition add_knowledge (fuel : nat) (st : MinesweeperAI) (c : cell) (cnt : Z)
  : result MinesweeperAI :=
  st' ← mines_safes fuel (ingest st c cnt);
  derive_loop fuel st'.

(** ** Fallback move: [MinesweeperAI.make_random_move] *)

(** The list [maybe_safe_moves], in the order the two loops build it. *)
Definition maybe_safe_moves (st : MinesweeperAI) : list cell :=
  i ← zrange 0 (height st);
  j ← zrange 0 (width st);
  if decide (((i, j) ∉ moves_made st) ∧ ((i, j) ∉ mines st)) then [(i, j)] else [].

(** [random.choice(seq)] is [seq[randbelow(len(seq))]]; [randbelow] is the
    random source, which draws an index below its argument. *)
Definition make_random_move (randbelow : nat → nat) (st : MinesweeperAI) : option cell :=
  let l := maybe_safe_moves st in
  if decide (length l ≠ 0%nat) then l !! randbelow (length l) else None.


(** ** Predicates used in the statements *)

(** The cells of the board, [0 <= i < height] and [0 <= j < width]. *)
Definition in_grid (st : MinesweeperAI) (c : cell) : Prop :=
  0 ≤ c.1 < height st ∧ 0 ≤ c.2 < width st.

(** The cells [make_random_move] may choose from. *)
Definition candidate (st : MinesweeperAI) (c : cell) : Prop :=
  in_grid st c ∧ (c ∉ moves_made st) ∧ (c ∉ mines st).

(** What marking every cell of [X] as a mine (as safe) does to one
    sentence; [set_fold_mark_mine] and [set_fold_mark_safe] below show
    that the loops [for mine in known_mines: self.mark_mine(mine)] and
    [for safe in known_safes: self.mark_safe(safe)] compute them. *)
Definition minus_mines (X : gset cell) (s : Sentence) : Sentence :=
  mkSentence (cells s ∖ X) (count s - len (cells s ∩ X)).

Definition minus_safes (X : gset cell) (s : Sentence) : Sentence :=
  mkSentence (cells s ∖ X) (count s).

(** The number of sentences with a non-empty cell set. *)
Definition nonempty_count (K : list Sentence) : nat :=
  length (filter (λ s, cells s ≠ ∅) K).

(** The five ways one iteration of the [for] loop of [mines_safes] can go
    at index [i], from the state [st], the flag [ch] and the list [es] of
    empty sentences collected so far. *)
Inductive step_view (st : MinesweeperAI) (ch : bool) (es : list Sentence) (i : nat)
  : MinesweeperAI * bool * list Sentence → Prop :=
  | step_end :
      knowledge st !! i = None →
      step_view st ch es i (st, ch, es)
  | step_empty s :
      knowledge st !! i = Some s → cells s = ∅ →
      step_view st ch es i (st, ch, es ++ [s])
  | step_mines s :
      knowledge st !! i = Some s → cells s ≠ ∅ → len (cells s) = count s →
      step_view st ch es i (set_fold mark_mine st (cells s), true, es)
  | step_safes s :
      knowledge st !! i = Some s → cells s ≠ ∅ → count s = 0 →
      step_view st ch es i (set_fold mark_safe st (cells s), true, es)
  | step_keep s :
      knowledge st !! i = Some s → cells s ≠ ∅ →
      len (cells s) ≠ count s → count s ≠ 0 →
      step_view st ch es i (st, ch, es).

(** The engine states that sequences of the state-changing public
    operations ([mark_mine], [mark_safe], [add_knowledge]) produce from a
    new engine; [make_safe_move] and [make_random_move] do not change the
    state. *)
Inductive reachable : MinesweeperAI → Prop :=
  | reach_init h w : reachable (init h w)
  | reach_mark_mine c st : reachable st → reachable (mark_mine c st)
  | reach_mark_safe c st : reachable st → reachable (mark_safe c st)
  | reach_add_knowledge fuel c cnt st st' :
      reachable st → add_knowledge fuel st c cnt = Ok st' → reachable st'.

(** No held sentence mentions a cell already known to be safe or a mine. *)
Definition fresh (st : MinesweeperAI) : Prop :=
  ∀ s, s ∈ knowledge st → ∀ c, c ∈ cells s → (c ∉ safes st) ∧ (c ∉ mines st).

(** ** The board, as far as the engine's inputs depend on it *)

(** [Minesweeper.nearby_mines] on a board of [h] rows and [w] columns;
    [self.board[i][j]] is true exactly for the cells of [self.mines], here
    the set [M]. *)
Definition nearby_mines (h w : Z) (M : gset cell) (c : cell) : Z :=
  foldl (λ cnt i,
    foldl (λ cnt j,
      if decide ((i, j) = c) then cnt
      else if decide (0 ≤ i < h ∧ 0 ≤ j < w)
           then (if decide ((i, j) ∈ M) then cnt + 1 else cnt)
           else cnt)
      cnt (zrange (c.2 - 1) (c.2 + 2)))
    0 (zrange (c.1 - 1) (c.1 + 2)).

(** The engine agrees with the mine layout [M]: known mines are mines,
    known safes are not, and every sentence counts the mines among its
    cells. *)
Definition sound (M : gset cell) (st : MinesweeperAI) : Prop :=
  mines st ⊆ M
  ∧ safes st ## M
  ∧ ∀ s, s ∈ knowledge st → count s = len (cells s ∩ M).

(** The engine states produced from a new engine by operations whose
    arguments are true of the layout [M]: only mines are marked as mines,
    only other cells as safe, and [add_knowledge] is called for a cell
    that is not a mine, with the count the board reports for it. *)
Inductive truthful (M : gset cell) : MinesweeperAI → Prop :=
  | truthful_init h w : truthful M (init h w)
  | truthful_mark_mine c st :
      truthful M st → c ∈ M → truthful M (mark_mine c st)
  | truthful_mark_safe c st :
      truthful M st → c ∉ M → truthful M (mark_safe c st)
  | truthful_add_knowledge fuel c st st' :
      truthful M st → c ∉ M →
      add_knowledge fuel st c (nearby_mines (height st) (width st) M c) = Ok st' →
      truthful M st'.

(** ** A run that does not end

    On a 3x3 board with [(1,1)] and [(0,0)] revealed, [ring] is the set of
    the seven other cells, [near] the two cells next to the corner and
    [far] the five others.  A knowledge base is [cycling] when it holds
    [ring = 2], [ring = 5] and [near = 1], and otherwise only sentences
    over [near] or [far] whose count is 1 modulo 3. *)
Definition near : gset cell := {[(0, 1); (1, 0)]}.
Definition far : gset cell := {[(0, 2); (1, 2); (2, 0); (2, 1); (2, 2)]}.
Definition ring : gset cell := near ∪ far.

Definition in_cycle (s : Sentence) : Prop :=
  (cells s = near ∧ count s mod 3 = 1)
  ∨ (cells s = far ∧ count s mod 3 = 1)
  ∨ s = mkSentence ring 2
  ∨ s = mkSentence ring 5.

Definition cycling (st : MinesweeperAI) : Prop :=
  len (moves_made st) = len (safes st)
  ∧ (∀ s, s ∈ knowledge st → in_cycle s)
  ∧ mkSentence near 1 ∈ knowledge st
  ∧ mkSentence ring 2 ∈ knowledge st
  ∧ mkSentence ring 5 ∈ knowledge st.

(** ** Measures for the derivation loop *)

(** The cells that some sentence of the knowledge base mentions. *)
Definition mentioned (K : list Sentence) : gset cell := ⋃ (cells <$> K).

(** The distinct non-empty cell sets of the knowledge base. *)
Definition cell_sets (K : list Sentence) : gset (gset cell) :=
  list_to_set (filter (λ X, X ≠ ∅) (cells <$> K)).

(** With [u] cells mentioned and [d] distinct cell sets, [d] is at most
    [2 ^ u]; the measure drops when [d] grows and when [u] shrinks. *)
Definition loop_measure (K : list Sentence) : nat :=
  2 ^ S (size (mentioned K)) + size (mentioned K) - size (cell_sets K).

(** Linear arithmetic with remainders by a constant. *)
Ltac mod_lia := Z.to_euclidean_division_equations; lia.

(** ** Safe move: [MinesweeperAI.make_safe_move] *)

(** [for move in self.safes: if move not in self.moves_made: return move],
    with the cells of [self.safes] visited in the order [order].  Python
    does not fix the order in which a set is visited, so the order is an
    argument, and the statements hold for every order that lists the
    cells of [safes]. *)
Definition make_safe_move_in (order : list cell) (st : MinesweeperAI)
  : option cell :=
  head (filter (λ c, c ∉ moves_made st) order).

(** ** The game: [class Minesweeper] *)

(** The attributes set by [Minesweeper.__init__]. *)
Record Minesweeper : Type := mkGame {
  game_height : Z;
  game_width : Z;
  game_mines : gset cell;
  board : list (list bool);
  mines_found : gset cell
}.

(** Python's [l[i]]: a negative index counts from the end of the list;
    [None] stands for [IndexError]. *)
Definition py_index {A : Type} (l : list A) (i : Z) : option A :=
  if decide (0 ≤ i) then l !! Z.to_nat i
  else if decide (- Z.of_nat (length l) ≤ i)
  then l !! Z.to_nat (Z.of_nat (length l) + i)
  else None.

(** [Minesweeper.is_mine]: [self.board[i][j]]. *)
Definition is_mine (g : Minesweeper) (c : cell) : option bool :=
  row ← py_index (board g) c.1; py_index row c.2.

(** [Minesweeper.nearby_mines] on the board of the game; [None] stands for
    an [IndexError] of [self.board[i][j]]. *)
Definition Minesweeper_nearby_mines (g : Minesweeper) (c : cell) : option Z :=
  foldl (λ acc i,
    foldl (λ acc j,
      cnt ← acc;
      if decide ((i, j) = c) then Some cnt
      else if decide (0 ≤ i < game_height g ∧ 0 ≤ j < game_width g)
           then b ← is_mine g (i, j); Some (if b : bool then cnt + 1 else cnt)
           else Some cnt)
      acc (zrange (c.2 - 1) (c.2 + 2)))
    (Some 0) (zrange (c.1 - 1) (c.1 + 2)).

(** [Minesweeper.won] *)
Definition won (g : Minesweeper) : bool :=
  bool_decide (mines_found g = game_mines g).

(** The empty field built by the first two loops of [__init__]. *)
Definition empty_board (h w : Z) : list (list bool) :=
  foldl (λ b _, b ++ [foldl (λ row _, row ++ [false]) [] (zrange 0 w)])
        [] (zrange 0 h).

(** How the construction of a game can end: with a game, with the
    [ValueError] of [random.randrange] on an empty range, with an
    [IndexError] of [self.board[i][j]], or with the fuel of the loop used
    up. *)
Inductive construction : Type :=
  | Built (g : Minesweeper)
  | RandValueError
  | BoardIndexError
  | NoFuel.

(** The loop [while len(self.mines) != mines] of [__init__].
    [randbelow k n] is the value the random source gives at its [k]-th
    call, for [random.randrange(n)]. *)
Fixpoint place_mines (randbelow : nat → nat → nat) (fuel k : nat) (h w n : Z)
    (ms : gset cell) (b : list (list bool)) : construction :=
  match fuel with
  | O => NoFuel
  | S fuel' =>
      if decide (len ms ≠ n) then
        if decide (h ≤ 0) then RandValueError else
        let i := Z.of_nat (randbelow k (Z.to_nat h)) in
        if decide (w ≤ 0) then RandValueError else
        let j := Z.of_nat (randbelow (S k) (Z.to_nat w)) in
        match py_index b i with
        | None => BoardIndexError
        | Some row =>
            match py_index row j with
            | None => BoardIndexError
            | Some true => place_mines randbelow fuel' (S (S k)) h w n ms b
            | Some false =>
                place_mines randbelow fuel' (S (S k)) h w n
                  ({[(i, j)]} ∪ ms)
                  (<[Z.to_nat i := <[Z.to_nat j := true]> row]> b)
            end
        end
      else Built (mkGame h w ms b ∅)
  end.

(** [Minesweeper.__init__] *)
Definition Minesweeper_init (randbelow : nat → nat → nat) (fuel : nat)
    (h w n : Z) : construction :=
  place_mines randbelow fuel 0 h w n ∅ (empty_board h w).

(** A board of [h] rows of [w] columns whose true entries are the cells of
    [ms]. *)
Definition board_of (h w : Z) (ms : gset cell) (b : list (list bool)) : Prop :=
  length b = Z.to_nat h
  ∧ (∀ row, row ∈ b → length row = Z.to_nat w)
  ∧ (∀ i j, 0 ≤ i < h → 0 ≤ j < w →
       ∃ row, b !! Z.to_nat i = Some row
              ∧ row !! Z.to_nat j = Some (bool_decide ((i, j) ∈ ms)))
  ∧ ∀ c, c ∈ ms → 0 ≤ c.1 < h ∧ 0 ≤ c.2 < w.

(** * Properties *)

(** ** Sentences and marking *)

Lemma len_nonneg (X : gset cell) : 0 ≤ len X.
Proof. unfold len. lia. Qed.

Lemma len_zero_iff (X : gset cell) : len X = 0 ↔ X = ∅.
Proof.
  unfold len. split.
  - intros H. apply leibniz_equiv, size_empty_iff. lia.
  - intros ->. by rewrite size_empty.
Qed.

Lemma len_pos_iff (X : gset cell) : len X > 0 ↔ X ≠ ∅.
Proof.
  rewrite <- len_zero_iff. pose proof (len_nonneg X). lia.
Qed.

Lemma Sentence_mark_mine_idemp c s :
  Sentence_mark_mine c (Sentence_mark_mine c s) = Sentence_mark_mine c s.
Proof.
  unfold Sentence_mark_mine at 2 3.
  destruct (decide (c ∈ cells s)) as [Hin|Hout].
  - unfold Sentence_mark_mine; cbn.
    rewrite decide_False; [reflexivity | set_solver].
  - unfold Sentence_mark_mine. rewrite decide_False; done.
Qed.

Lemma Sentence_mark_safe_idemp c s :
  Sentence_mark_safe c (Sentence_mark_safe c s) = Sentence_mark_safe c s.
Proof.
  unfold Sentence_mark_safe at 2 3.
  destruct (decide (c ∈ cells s)) as [Hin|Hout].
  - unfold Sentence_mark_safe; cbn.
    rewrite decide_False; [reflexivity | set_solver].
  - unfold Sentence_mark_safe. rewrite decide_False; done.
Qed.

(** C8. [MinesweeperAI.mark_mine] and [MinesweeperAI.mark_safe] are
    idempotent: marking the same cell a second time leaves the whole
    engine state (grid size, [moves_made], [mines], [safes] and every held
    sentence) as the first call left it. *)
Theorem mark_idempotent (c : cell) (st : MinesweeperAI) :
  mark_mine c (mark_mine c st) = mark_mine c st
  ∧ mark_safe c (mark_safe c st) = mark_safe c st.
Proof.
  split; unfold mark_mine, mark_safe; cbn; f_equal.
  - set_solver.
  - rewrite <- list_fmap_compose. apply list_fmap_ext.
    intros _ s _. apply Sentence_mark_mine_idemp.
  - set_solver.
  - rewrite <- list_fmap_compose. apply list_fmap_ext.
    intros _ s _. apply Sentence_mark_safe_idemp.
Qed.

(** ** Derivation *)

Lemma elem_of_accept K s t :
  t ∈ accept K s ↔ t = s ∧ (s ∉ K) ∧ cells s ≠ ∅.
Proof.
  unfold accept. rewrite <- len_pos_iff.
  destruct (decide _) as [[H1 H2]|Hn].
  - rewrite list_elem_of_singleton. tauto.
  - rewrite elem_of_nil. tauto.
Qed.

Lemma elem_of_infer_pair K a b t :
  t ∈ infer_pair K a b ↔
    (t ∉ K) ∧ cells t ≠ ∅ ∧
    ((cells a ⊆ cells b ∧ t = mkSentence (cells b ∖ cells a) (count b - count a))
     ∨ (cells a ⊈ cells b ∧ cells b ⊆ cells a
        ∧ t = mkSentence (cells a ∖ cells b) (count a - count b))).
Proof.
  unfold infer_pair.
  destruct (decide (cells a ⊆ cells b)) as [Hab|Hab];
    [|destruct (decide (cells b ⊆ cells a)) as [Hba|Hba]];
    rewrite ?elem_of_accept, ?elem_of_nil; naive_solver.
Qed.

(** The elements of one derivation pass: the results of the loop body at
    the index pairs [i < j]. *)
Lemma elem_of_inferences st t :
  t ∈ inferences st ↔
    ∃ i j a b, (i < j)%nat ∧ knowledge st !! i = Some a
               ∧ knowledge st !! j = Some b
               ∧ t ∈ infer_pair (knowledge st) a b.
Proof.
  unfold inferences. cbn zeta. rewrite list_elem_of_bind. split.
  - intros (i & Ht & Hi). apply list_elem_of_bind in Ht as (j & Ht & Hj).
    apply elem_of_seq in Hj.
    destruct (knowledge st !! i) as [a|] eqn:Ha; [|by apply elem_of_nil in Ht].
    destruct (knowledge st !! j) as [b|] eqn:Hb; [|by apply elem_of_nil in Ht].
    exists i, j, a, b. repeat split; auto. lia.
  - intros (i & j & a & b & Hij & Ha & Hb & Ht).
    apply lookup_lt_Some in Hb as Hj.
    exists i. split.
    + apply list_elem_of_bind. exists j. rewrite Ha, Hb. split; [done|].
      apply elem_of_seq. lia.
    + apply elem_of_seq. lia.
Qed.

(** A pair with [A.cells] inside [B.cells], at either order of positions,
    yields the difference when it is new and non-empty. *)
Lemma inferences_complete st i j A B :
  i ≠ j →
  knowledge st !! i = Some A →
  knowledge st !! j = Some B →
  cells A ⊆ cells B →
  cells B ∖ cells A ≠ ∅ →
  mkSentence (cells B ∖ cells A) (count B - count A) ∉ knowledge st →
  mkSentence (cells B ∖ cells A) (count B - count A) ∈ inferences st.
Proof.
  intros Hij HA HB Hsub Hne Hnew. apply elem_of_inferences.
  destruct (decide (i < j)%nat) as [Hlt|Hge].
  - exists i, j, A, B. repeat split; auto.
    apply elem_of_infer_pair. repeat split; auto.
  - exists j, i, B, A. repeat split; auto; [lia|].
    apply elem_of_infer_pair. repeat split; auto.
    right. repeat split; auto.
    intros Hba. apply Hne. set_solver.
Qed.

(** C6. For two sentences [A] and [B] held at different positions of the
    knowledge base with [A.cells] a subset of [B.cells], a derivation pass
    returns the candidate [(B.cells - A.cells, B.count - A.count)] exactly
    when its cell set is non-empty and it is not already in the knowledge
    base; from [{a,b} = 1] and [{a,b,c} = 2] the pass returns [{c} = 1]. *)
Theorem inferences_subset_pair :
  (∀ (st : MinesweeperAI) (i j : nat) (A B : Sentence),
     i ≠ j →
     knowledge st !! i = Some A →
     knowledge st !! j = Some B →
     cells A ⊆ cells B →
     mkSentence (cells B ∖ cells A) (count B - count A) ∈ inferences st
     ↔ cells B ∖ cells A ≠ ∅
       ∧ mkSentence (cells B ∖ cells A) (count B - count A) ∉ knowledge st)
  ∧ (∀ (st : MinesweeperAI) (a b c : cell),
       a ≠ c → b ≠ c →
       knowledge st = [mkSentence {[a; b]} 1; mkSentence {[a; b; c]} 2] →
       inferences st = [mkSentence {[c]} 1]).
Proof.
  split.
  - intros st i j A B Hij HA HB Hsub. rewrite elem_of_inferences. split.
    + intros (i' & j' & a' & b' & _ & _ & _ & Ht).
      apply elem_of_infer_pair in Ht as (Hnew & Hne & _). auto.
    + intros [Hne Hnew]. apply elem_of_inferences.
      by apply (inferences_complete st i j A B).
  - intros st a b c Hac Hbc HK. unfold inferences. rewrite HK. cbn.
    unfold infer_pair; cbn. rewrite decide_True by set_solver.
    assert (({[a; b; c]} : gset cell) ∖ {[a; b]} = {[c]}) as -> by set_solver.
    unfold accept; cbn. rewrite decide_True; [reflexivity|].
    split.
    + rewrite !not_elem_of_cons. repeat split.
      * intros E. apply (f_equal cells) in E. cbn in E.
        assert (c ∈ ({[a; b]} : gset cell)) by (rewrite <- E; set_solver).
        set_solver.
      * intros E. apply (f_equal count) in E. cbn in E. lia.
      * apply not_elem_of_nil.
    + apply len_pos_iff. set_solver.
Qed.

(** C6, witness: [{(0,0),(0,1)} = 1] and [{(0,0),(0,1),(0,2)} = 2]. *)
Lemma inferences_subset_pair_witness :
  let A := mkSentence {[(0, 0); (0, 1)]} 1 in
  let B := mkSentence {[(0, 0); (0, 1); (0, 2)]} 2 in
  let st := mkAI 3 3 ∅ ∅ ∅ [A; B] in
  (mkSentence (cells B ∖ cells A) (count B - count A) ∈ inferences st
   ↔ cells B ∖ cells A ≠ ∅
     ∧ mkSentence (cells B ∖ cells A) (count B - count A) ∉ knowledge st)
  ∧ inferences st = [mkSentence {[(0, 2)]} 1].
Proof.
  cbn zeta. destruct inferences_subset_pair as [H1 H2]. split.
  - apply (H1 _ 0%nat 1%nat); [lia | reflexivity | reflexivity |].
    cbn. set_solver.
  - apply (H2 _ (0, 0) (0, 1) (0, 2)); [done | done | reflexivity].
Defined.

(** ** Fallback move *)

Lemma elem_of_zrange a b k : k ∈ zrange a b ↔ a ≤ k < b.
Proof. unfold zrange. rewrite elem_of_seqZ. lia. Qed.

Lemma elem_of_maybe_safe_moves st c :
  c ∈ maybe_safe_moves st ↔ candidate st c.
Proof.
  unfold maybe_safe_moves, candidate, in_grid.
  rewrite list_elem_of_bind. split.
  - intros (i & Hc & Hi). apply list_elem_of_bind in Hc as (j & Hc & Hj).
    apply elem_of_zrange in Hi, Hj.
    destruct (decide _) as [[? ?]|?]; [|by apply elem_of_nil in Hc].
    apply list_elem_of_singleton in Hc as ->. cbn. auto.
  - destruct c as [i j]. cbn. intros ((Hi & Hj) & Hm & Hn).
    exists i. split; [|apply elem_of_zrange; lia].
    apply list_elem_of_bind. exists j. split; [|apply elem_of_zrange; lia].
    rewrite decide_True by done. by apply list_elem_of_singleton.
Qed.

Lemma NoDup_maybe_safe_moves st : NoDup (maybe_safe_moves st).
Proof.
  unfold maybe_safe_moves. apply NoDup_bind.
  - intros i1 i2 c _ _ H1 H2.
    apply list_elem_of_bind in H1 as (j1 & H1 & _).
    apply list_elem_of_bind in H2 as (j2 & H2 & _).
    destruct (decide _); [|by apply elem_of_nil in H1].
    destruct (decide _); [|by apply elem_of_nil in H2].
    apply list_elem_of_singleton in H1, H2. congruence.
  - intros i _. apply NoDup_bind.
    + intros j1 j2 c _ _ H1 H2.
      destruct (decide _); [|by apply elem_of_nil in H1].
      destruct (decide _); [|by apply elem_of_nil in H2].
      apply list_elem_of_singleton in H1, H2. congruence.
    + intros j _. destruct (decide _); [apply NoDup_singleton | apply NoDup_nil_2].
    + apply NoDup_seqZ.
  - apply NoDup_seqZ.
Qed.

(** The move returned is the candidate at the index drawn. *)
Lemma make_random_move_lookup randbelow st :
  make_random_move randbelow st
  = maybe_safe_moves st !! randbelow (length (maybe_safe_moves st)).
Proof.
  unfold make_random_move. destruct (decide _) as [Hne|He]; [done|].
  destruct (maybe_safe_moves st); [done | cbn in He; lia].
Qed.

(** C9. With a random source [randbelow] that draws an index below its
    argument, [make_random_move] returns a cell of the grid that is neither
    in [moves_made] nor in [mines]; it returns [None] exactly when every
    grid cell is in [moves_made] or in [mines]; every candidate cell is
    returned for exactly one of the equally likely draws, so the choice is
    uniform over the candidates; and when [mines] holds every grid cell but
    one and that cell is in [moves_made], the result is [None]. *)
Theorem make_random_move_spec (randbelow : nat → nat) (st : MinesweeperAI) :
  (∀ n, (0 < n)%nat → (randbelow n < n)%nat) →
  (∀ c, make_random_move randbelow st = Some c → candidate st c)
  ∧ (make_random_move randbelow st = None
     ↔ ∀ c, in_grid st c → c ∈ moves_made st ∨ c ∈ mines st)
  ∧ (∀ c, candidate st c →
       ∃ k, (k < length (maybe_safe_moves st))%nat
            ∧ ∀ k', make_random_move (λ _, k') st = Some c ↔ k' = k)
  ∧ (∀ x, x ∈ moves_made st →
          (∀ c, in_grid st c → c ≠ x → c ∈ mines st) →
          make_random_move randbelow st = None).
Proof.
  intros Hrb.
  assert (Hnone : make_random_move randbelow st = None
     ↔ ∀ c, in_grid st c → c ∈ moves_made st ∨ c ∈ mines st).
  { rewrite make_random_move_lookup. split.
    - intros Hn c Hc.
      destruct (decide (c ∈ moves_made st)) as [|Hm]; [by left|].
      destruct (decide (c ∈ mines st)) as [|Hi]; [by right|].
      assert (Hin : c ∈ maybe_safe_moves st)
        by (apply elem_of_maybe_safe_moves; done).
      apply lookup_ge_None in Hn.
      destruct (maybe_safe_moves st) as [|c0 l]; [by apply elem_of_nil in Hin|].
      specialize (Hrb (length (c0 :: l))). cbn in *. lia.
    - intros Hall. apply lookup_ge_None.
      destruct (maybe_safe_moves st) as [|c0 l] eqn:E; [cbn; lia|].
      assert (Hc : candidate st c0)
        by (apply elem_of_maybe_safe_moves; rewrite E; left).
      destruct Hc as (Hg & Hm & Hi). destruct (Hall c0 Hg); done. }
  split; [|split; [exact Hnone|split]].
  - intros c Hc. rewrite make_random_move_lookup in Hc.
    apply elem_of_maybe_safe_moves. by eapply list_elem_of_lookup_2.
  - intros c Hc. apply elem_of_maybe_safe_moves in Hc.
    apply list_elem_of_lookup_1 in Hc as [k Hk].
    exists k. split; [by eapply lookup_lt_Some|].
    intros k'. rewrite make_random_move_lookup. split.
    + intros Hk'. eapply NoDup_lookup; eauto using NoDup_maybe_safe_moves.
    + by intros ->.
  - intros x Hx Hall. apply Hnone. intros c Hc.
    destruct (decide (c = x)) as [->|Hne]; [by left | right; auto].
Qed.

(** C9, witness: on a 1x2 board with [(0,1)] a known mine and [(0,0)]
    already played, there is no move left. *)
Lemma make_random_move_spec_witness :
  make_random_move (λ _, 0%nat) (mkAI 1 2 {[(0, 0)]} {[(0, 1)]} ∅ []) = None.
Proof.
  destruct (make_random_move_spec (λ _, 0%nat)
              (mkAI 1 2 {[(0, 0)]} {[(0, 1)]} ∅ [])) as (_ & _ & _ & H).
  - intros n Hn. exact Hn.
  - apply (H (0, 0)).
    + cbn. set_solver.
    + intros [i j] [Hi Hj] Hne. cbn in *.
      assert (i = 0) as -> by lia.
      assert (j = 1) as ->; [|set_solver].
      destruct (decide (j = 0)) as [->|]; [done | lia].
Defined.

(** ** Marking a set of cells *)

Lemma foldr_mark_mine (l : list cell) st :
  NoDup l →
  foldr mark_mine st l
  = mkAI (height st) (width st) (moves_made st)
         (list_to_set l ∪ mines st) (safes st)
         (minus_mines (list_to_set l) <$> knowledge st).
Proof.
  induction 1 as [|c l Hc Hl IH]; cbn.
  - destruct st; cbn. f_equal; [set_solver|].
    rewrite <- (list_fmap_id knowledge0) at 1. apply list_fmap_ext.
    intros _ [X n] _. unfold minus_mines; cbn. f_equal; [set_solver|].
    assert (X ∩ ∅ = (∅ : gset cell)) as -> by set_solver.
    unfold len. rewrite size_empty. lia.
  - rewrite IH. unfold mark_mine; cbn. f_equal; [set_solver|].
    rewrite <- list_fmap_compose. apply list_fmap_ext.
    intros _ [X n] _. unfold minus_mines, Sentence_mark_mine; cbn.
    assert (Hc' : c ∉ (list_to_set l : gset cell)) by (by rewrite elem_of_list_to_set).
    destruct (decide (c ∈ X ∖ list_to_set l)) as [Hin|Hout]; f_equal.
    + set_solver.
    + assert (X ∩ ({[c]} ∪ list_to_set l) = {[c]} ∪ X ∩ list_to_set l)
        as -> by set_solver.
      unfold len.
      rewrite (size_union (C:=gset cell) {[c]} (X ∩ list_to_set l)) by set_solver.
      rewrite size_singleton. lia.
    + set_solver.
    + assert (X ∩ ({[c]} ∪ list_to_set l) = X ∩ list_to_set l)
        as -> by set_solver.
      done.
Qed.

Lemma foldr_mark_safe (l : list cell) st :
  foldr mark_safe st l
  = mkAI (height st) (width st) (moves_made st)
         (mines st) (list_to_set l ∪ safes st)
         (minus_safes (list_to_set l) <$> knowledge st).
Proof.
  induction l as [|c l IH]; cbn.
  - destruct st; cbn. f_equal; [set_solver|].
    rewrite <- (list_fmap_id knowledge0) at 1. apply list_fmap_ext.
    intros _ [X n] _. unfold minus_safes; cbn. f_equal; set_solver.
  - rewrite IH. unfold mark_safe; cbn. f_equal; [set_solver|].
    rewrite <- list_fmap_compose. apply list_fmap_ext.
    intros _ [X n] _. unfold minus_safes, Sentence_mark_safe; cbn.
    destruct (decide (c ∈ X ∖ list_to_set l)); f_equal; set_solver.
Qed.

(** [for mine in known_mines: self.mark_mine(mine)] in closed form. *)
Lemma set_fold_mark_mine (X : gset cell) st :
  set_fold mark_mine st X
  = mkAI (height st) (width st) (moves_made st) (X ∪ mines st) (safes st)
         (minus_mines X <$> knowledge st).
Proof.
  unfold set_fold; cbn. rewrite foldr_mark_mine by apply NoDup_elements.
  by rewrite list_to_set_elements_L.
Qed.

(** [for safe in known_safes: self.mark_safe(safe)] in closed form. *)
Lemma set_fold_mark_safe (X : gset cell) st :
  set_fold mark_safe st X
  = mkAI (height st) (width st) (moves_made st) (mines st) (X ∪ safes st)
         (minus_safes X <$> knowledge st).
Proof.
  unfold set_fold; cbn. rewrite foldr_mark_safe.
  by rewrite list_to_set_elements_L.
Qed.

Lemma mark_mine_set_fold c st :
  mark_mine c st = set_fold mark_mine st ({[c]} : gset cell).
Proof. by rewrite set_fold_singleton. Qed.

Lemma mark_safe_set_fold c st :
  mark_safe c st = set_fold mark_safe st ({[c]} : gset cell).
Proof. by rewrite set_fold_singleton. Qed.

(** ** One pass of [mines_safes] *)

Lemma scan_step_view st ch es i :
  step_view st ch es i (scan_step (st, ch, es) i).
Proof.
  unfold scan_step.
  destruct (knowledge st !! i) as [s|] eqn:Hs; [|by constructor].
  destruct (decide (len (cells s) = 0)) as [He|Hne].
  { apply step_empty; [done|]. by apply len_zero_iff. }
  assert (Hs' : cells s ≠ ∅) by (by rewrite <- len_zero_iff).
  unfold known_mines, known_safes.
  destruct (decide (len (cells s) = count s)) as [Hm|Hm];
    destruct (decide (count s = 0)) as [Hz|Hz].
  - congruence.
  - rewrite set_fold_empty.
    rewrite bool_decide_eq_true_2 by done.
    rewrite orb_true_r. cbn. by apply (step_mines _ _ _ _ s).
  - rewrite set_fold_empty.
    rewrite (bool_decide_eq_true_2 (cells s ≠ ∅)) by done.
    rewrite orb_true_r. by apply (step_safes _ _ _ _ s).
  - rewrite !set_fold_empty.
    rewrite bool_decide_eq_false_2 by (intros H; by apply H).
    rewrite !orb_false_r. by apply (step_keep _ _ _ _ s).
Qed.

Lemma foldl_seq_invariant {A : Type} (I : nat → A → Prop) (f : A → nat → A)
    (k n : nat) (a : A) :
  I k a →
  (∀ i a, (k ≤ i < k + n)%nat → I i a → I (S i) (f a i)) →
  I (k + n)%nat (foldl f a (seq k n)).
Proof.
  revert k a. induction n as [|n IH]; intros k a Ha Hstep; cbn.
  - by rewrite Nat.add_0_r.
  - replace (k + S n)%nat with (S k + n)%nat by lia. apply IH.
    + apply Hstep; [lia | done].
    + intros i a' Hi. apply Hstep. lia.
Qed.

Lemma set_fold_mark_mine_length (X : gset cell) st :
  length (knowledge (set_fold mark_mine st X)) = length (knowledge st).
Proof. rewrite set_fold_mark_mine; cbn. apply length_fmap. Qed.

Lemma set_fold_mark_safe_length (X : gset cell) st :
  length (knowledge (set_fold mark_safe st X)) = length (knowledge st).
Proof. rewrite set_fold_mark_safe; cbn. apply length_fmap. Qed.

(** Induction over the iterations of one pass. *)
Lemma scan_ind (I : nat → MinesweeperAI → bool → list Sentence → Prop) st0 :
  I 0%nat st0 false [] →
  (∀ i st ch es st' ch' es',
     (i < length (knowledge st0))%nat →
     length (knowledge st) = length (knowledge st0) →
     I i st ch es →
     step_view st ch es i (st', ch', es') →
     I (S i) st' ch' es') →
  ∀ st ch es, scan st0 = (st, ch, es) →
    length (knowledge st) = length (knowledge st0)
    ∧ I (length (knowledge st0)) st ch es.
Proof.
  intros H0 Hstep st ch es Hscan.
  pose (J := λ (i : nat) (acc : MinesweeperAI * bool * list Sentence),
          length (knowledge acc.1.1) = length (knowledge st0)
          ∧ I i acc.1.1 acc.1.2 acc.2).
  assert (HJ : J (0 + length (knowledge st0))%nat (scan st0)).
  { unfold scan. apply (foldl_seq_invariant J).
    - split; [done|]. exact H0.
    - intros i [[st1 ch1] es1] Hi [Hlen HI]. cbn in Hlen, HI.
      pose proof (scan_step_view st1 ch1 es1 i) as Hv.
      destruct (scan_step (st1, ch1, es1) i) as [[st2 ch2] es2] eqn:E.
      split; cbn.
      + inversion Hv; subst; auto.
        * by rewrite set_fold_mark_mine_length.
        * by rewrite set_fold_mark_safe_length.
      + eapply Hstep; eauto. lia. }
  rewrite Hscan in HJ. exact HJ.
Qed.

Lemma minus_mines_empty X s : cells s = ∅ → minus_mines X s = s.
Proof.
  destruct s as [Y n]; cbn. intros ->. unfold minus_mines; cbn.
  assert ((∅ : gset cell) ∩ X = ∅) as -> by set_solver.
  assert ((∅ : gset cell) ∖ X = ∅) as -> by set_solver.
  unfold len. rewrite size_empty. f_equal. lia.
Qed.

Lemma minus_safes_empty X s : cells s = ∅ → minus_safes X s = s.
Proof.
  destruct s as [Y n]; cbn. intros ->. unfold minus_safes; cbn.
  f_equal. set_solver.
Qed.

Lemma fmap_fixed_sublist (g : Sentence → Sentence) (es K : list Sentence) :
  Forall (λ s, g s = s) es → es `sublist_of` K → es `sublist_of` g <$> K.
Proof.
  intros Hfix Hsub.
  assert (g <$> es = es) as <-.
  { rewrite <- (list_fmap_id es) at 2. by apply Forall_fmap_ext_1. }
  by apply fmap_sublist.
Qed.

Lemma nonempty_count_fmap_le (g : Sentence → Sentence) K :
  (∀ s, cells (g s) ⊆ cells s) →
  (nonempty_count (g <$> K) ≤ nonempty_count K)%nat.
Proof.
  intros Hg. unfold nonempty_count.
  induction K as [|s K IH]; [done|]. rewrite fmap_cons, !filter_cons.
  specialize (Hg s).
  destruct (decide (cells (g s) ≠ ∅)), (decide (cells s ≠ ∅)); cbn; try lia.
  exfalso. set_solver.
Qed.

Lemma nonempty_count_fmap_lt (g : Sentence → Sentence) K i s :
  (∀ s, cells (g s) ⊆ cells s) →
  K !! i = Some s → cells s ≠ ∅ → cells (g s) = ∅ →
  (nonempty_count (g <$> K) < nonempty_count K)%nat.
Proof.
  intros Hg. revert i. induction K as [|t K IH]; intros i Hi Hs Hgs; [done|].
  pose proof (nonempty_count_fmap_le g K Hg) as Hle.
  unfold nonempty_count in *. rewrite fmap_cons, !filter_cons.
  destruct i as [|i]; cbn in Hi.
  - injection Hi as ->.
    rewrite decide_False by (intros H; by apply H).
    rewrite decide_True by done. cbn. lia.
  - specialize (IH i Hi Hs Hgs). specialize (Hg t).
    destruct (decide (cells (g t) ≠ ∅)), (decide (cells t ≠ ∅)); cbn; try lia.
    exfalso. set_solver.
Qed.

Lemma take_S_sublist {A : Type} (l : list A) i : take i l `sublist_of` take (S i) l.
Proof.
  destruct (l !! i) as [x|] eqn:E.
  - rewrite (take_S_r _ _ x) by done. by apply sublist_inserts_r.
  - apply lookup_ge_None in E. by rewrite !take_ge by lia.
Qed.

(** What one pass establishes: the collected sentences are empty and sit
    in the knowledge base; the number of non-empty sentences does not grow
    and drops when the flag is set; a pass that leaves the flag unset has
    changed nothing, collected every empty sentence and met no sentence
    that resolves. *)
Lemma scan_facts st0 st ch es :
  scan st0 = (st, ch, es) →
  length (knowledge st) = length (knowledge st0)
  ∧ es `sublist_of` knowledge st
  ∧ Forall (λ s, cells s = ∅) es
  ∧ (nonempty_count (knowledge st) ≤ nonempty_count (knowledge st0))%nat
  ∧ (ch = true →
     (nonempty_count (knowledge st) < nonempty_count (knowledge st0))%nat)
  ∧ (ch = false →
     st = st0
     ∧ es = filter (λ s, cells s = ∅) (knowledge st0)
     ∧ ∀ s, s ∈ knowledge st0 → cells s ≠ ∅ →
            len (cells s) ≠ count s ∧ count s ≠ 0).
Proof.
  intros Hscan.
  pose (I := λ (i : nat) (st : MinesweeperAI) (ch : bool) (es : list Sentence),
    es `sublist_of` take i (knowledge st)
    ∧ Forall (λ s, cells s = ∅) es
    ∧ (nonempty_count (knowledge st) ≤ nonempty_count (knowledge st0))%nat
    ∧ (ch = true →
       (nonempty_count (knowledge st) < nonempty_count (knowledge st0))%nat)
    ∧ (ch = false →
       st = st0
       ∧ es = filter (λ s, cells s = ∅) (take i (knowledge st0))
       ∧ ∀ j s, (j < i)%nat → knowledge st0 !! j = Some s → cells s ≠ ∅ →
                len (cells s) ≠ count s ∧ count s ≠ 0)).
  destruct (scan_ind I st0) with (st := st) (ch := ch) (es := es)
    as (Hlen & Hsub & Hemp & Hle & Hlt & Hfix); [| |done|].
  - unfold I. split_and!; auto; try done. intros _. split_and!; auto. intros; lia.
  - clear Hscan st ch es. intros i st ch es st' ch' es' Hi Hlen
      (Hsub & Hemp & Hle & Hlt & Hfix) Hv.
    inversion Hv as [Hn|s Hs He|s Hs Hne Hm|s Hs Hne Hz|s Hs Hne Hm Hz]; subst.
    + apply lookup_ge_None in Hn. lia.
    + unfold I. split_and!; auto.
      * rewrite (take_S_r _ _ s) by done. apply sublist_app; done.
      * apply Forall_app. split; [done|]. by apply Forall_singleton.
      * intros Hch. destruct (Hfix Hch) as (-> & -> & Hall). split_and!; auto.
        -- rewrite (take_S_r _ _ s) by done. rewrite filter_app.
           by rewrite (filter_cons_True _ s []).
        -- intros j t Hj Ht Hne.
           destruct (decide (j = i)) as [->|]; [congruence|].
           apply (Hall j); auto. lia.
    + rewrite set_fold_mark_mine. unfold I; cbn. split_and!; auto.
      * etrans; [|apply take_S_sublist]. rewrite <- fmap_take.
        apply fmap_fixed_sublist; [|done].
        eapply Forall_impl; [exact Hemp|]. intros t. apply minus_mines_empty.
      * etrans; [|exact Hle]. apply nonempty_count_fmap_le.
        intros t. cbn. set_solver.
      * intros _. eapply Nat.lt_le_trans; [|exact Hle].
        apply (nonempty_count_fmap_lt _ _ i s); auto; cbn; set_solver.
      * done.
    + rewrite set_fold_mark_safe. unfold I; cbn. split_and!; auto.
      * etrans; [|apply take_S_sublist]. rewrite <- fmap_take.
        apply fmap_fixed_sublist; [|done].
        eapply Forall_impl; [exact Hemp|]. intros t. apply minus_safes_empty.
      * etrans; [|exact Hle]. apply nonempty_count_fmap_le.
        intros t. cbn. set_solver.
      * intros _. eapply Nat.lt_le_trans; [|exact Hle].
        apply (nonempty_count_fmap_lt _ _ i s); auto; cbn; set_solver.
      * done.
    + unfold I. split_and!; auto.
      * etrans; [exact Hsub | apply take_S_sublist].
      * intros Hch. destruct (Hfix Hch) as (-> & -> & Hall). split_and!; auto.
        -- rewrite (take_S_r _ _ s) by done. rewrite filter_app.
           rewrite (filter_cons_False _ s []) by (intros H; by apply Hne).
           by rewrite filter_nil, app_nil_r.
        -- intros j t Hj Ht Hne'.
           destruct (decide (j = i)) as [->|]; [|apply (Hall j); auto; lia].
           assert (t = s) as -> by congruence. done.
  - rewrite <- Hlen in Hsub, Hfix. rewrite take_ge in Hsub by lia.
    split_and!; auto.
    intros Hch. destruct (Hfix Hch) as (-> & -> & Hall).
    rewrite take_ge by lia. split_and!; auto.
    intros s Hs. apply list_elem_of_lookup_1 in Hs as [j Hj].
    apply (Hall j); auto. by eapply lookup_lt_Some.
Qed.

(** ** Removing the collected sentences *)

Lemma list_remove_perm x l l' : list_remove x l = Some l' → l ≡ₚ x :: l'.
Proof.
  revert l'. induction l as [|y l IH]; intros l' H; cbn in H; [done|].
  destruct (decide (y = x)) as [->|Hne].
  - by injection H as ->.
  - destruct (list_remove x l) as [l1|]; [|done]. cbn in H.
    injection H as <-. rewrite (IH l1 eq_refl). apply Permutation_swap.
Qed.

Lemma list_remove_elem_of x l : x ∈ l → is_Some (list_remove x l).
Proof.
  induction l as [|y l IH]; intros H; [by apply elem_of_nil in H|].
  cbn. destruct (decide (y = x)); [by eexists|].
  apply elem_of_cons in H as [->|H]; [done|].
  destruct (IH H) as [l' ->]. by eexists.
Qed.

Lemma remove_each_perm es K K' : remove_each es K = Some K' → K ≡ₚ es ++ K'.
Proof.
  revert K. induction es as [|e es IH]; intros K H; cbn in H.
  - by injection H as ->.
  - destruct (list_remove e K) as [K1|] eqn:E; [|done].
    apply list_remove_perm in E. rewrite E. cbn. f_equiv. by apply IH.
Qed.

(** [list.remove] does not raise when the sentences to remove are held in
    the list, each as often as it is to be removed. *)
Lemma remove_each_submseteq es K : es ⊆+ K → is_Some (remove_each es K).
Proof.
  revert K. induction es as [|e es IH]; intros K H; cbn; [by eexists|].
  apply submseteq_cons_l in H as (K1 & HK & Hsub).
  destruct (list_remove_elem_of e K) as [K2 E].
  { rewrite HK. left. }
  rewrite E. apply IH.
  apply list_remove_perm in E. rewrite E in HK.
  apply Permutation_cons_inv in HK. by rewrite HK.
Qed.

Lemma nonempty_count_perm K1 K2 : K1 ≡ₚ K2 → nonempty_count K1 = nonempty_count K2.
Proof. intros H. unfold nonempty_count. by rewrite H. Qed.

Lemma nonempty_count_app K1 K2 :
  nonempty_count (K1 ++ K2) = (nonempty_count K1 + nonempty_count K2)%nat.
Proof. unfold nonempty_count. by rewrite filter_app, length_app. Qed.

Lemma nonempty_count_empties es :
  Forall (λ s, cells s = ∅) es → nonempty_count es = 0%nat.
Proof.
  unfold nonempty_count. induction 1 as [|s es Hs _ IH]; [done|].
  rewrite filter_cons_False; [done|]. intros H; by apply H.
Qed.

Lemma filter_all (P : Sentence → Prop) `{∀ s, Decision (P s)} (l : list Sentence) :
  Forall P l → filter P l = l.
Proof.
  induction 1 as [|s l Hs _ IH]; [done|].
  rewrite filter_cons_True by done. by rewrite IH.
Qed.

(** The cleanup at the end of a pass always succeeds. *)
Lemma scan_remove st0 st ch es :
  scan st0 = (st, ch, es) →
  ∃ K, remove_each es (knowledge st) = Some K
       ∧ knowledge st ≡ₚ es ++ K
       ∧ nonempty_count K = nonempty_count (knowledge st).
Proof.
  intros Hscan. destruct (scan_facts _ _ _ _ Hscan) as (_ & Hsub & Hemp & _).
  destruct (remove_each_submseteq es (knowledge st)) as [K HK].
  { by apply sublist_submseteq. }
  exists K. split; [done|]. apply remove_each_perm in HK as Hperm.
  split; [done|]. rewrite (nonempty_count_perm _ _ Hperm).
  rewrite nonempty_count_app. rewrite (nonempty_count_empties es) by done. lia.
Qed.

(** ** The propagation loop *)

(** Induction over the passes of a run of [mines_safes] that returns. *)
Lemma mines_safes_ind (R : MinesweeperAI → MinesweeperAI → Prop) :
  (∀ st st1 es K,
     scan st = (st1, false, es) →
     remove_each es (knowledge st1) = Some K →
     R st (set_knowledge K st1)) →
  (∀ st st1 es K st',
     scan st = (st1, true, es) →
     remove_each es (knowledge st1) = Some K →
     R (set_knowledge K st1) st' →
     R st st') →
  ∀ fuel st st', mines_safes fuel st = Ok st' → R st st'.
Proof.
  intros Hlast Hnext. induction fuel as [|fuel IH]; intros st st' H; [done|].
  cbn in H. destruct (scan st) as [[st1 ch] es] eqn:Hscan.
  destruct (remove_each es (knowledge st1)) as [K|] eqn:HK; [|done].
  destruct ch.
  - eapply Hnext; eauto.
  - injection H as <-. eapply Hlast; eauto.
Qed.

(** [mines_safes] returns as soon as the fuel exceeds the number of
    non-empty sentences: every pass that asks for another one has emptied
    a sentence. *)
Lemma mines_safes_terminates fuel st :
  (nonempty_count (knowledge st) < fuel)%nat →
  ∃ st', mines_safes fuel st = Ok st'.
Proof.
  revert st. induction fuel as [|fuel IH]; intros st Hfuel; [lia|].
  cbn. destruct (scan st) as [[st1 ch] es] eqn:Hscan.
  destruct (scan_remove _ _ _ _ Hscan) as (K & -> & _ & HK).
  destruct (scan_facts _ _ _ _ Hscan) as (_ & _ & _ & Hle & Hlt & _).
  destruct ch; [|by eexists].
  apply IH. unfold set_knowledge; cbn [knowledge].
  specialize (Hlt eq_refl). lia.
Qed.

Lemma mines_safes_fuel_mono fuel fuel' st st' :
  mines_safes fuel st = Ok st' → (fuel ≤ fuel')%nat →
  mines_safes fuel' st = Ok st'.
Proof.
  revert fuel' st. induction fuel as [|fuel IH]; intros fuel' st H Hle; [done|].
  destruct fuel' as [|fuel']; [lia|]. cbn in *.
  destruct (scan st) as [[st1 ch] es].
  destruct (remove_each es (knowledge st1)) as [K|]; [|done].
  destruct ch; [|done]. apply IH; [done | lia].
Qed.

(** The loop never raises. *)
Lemma mines_safes_no_error fuel st : mines_safes fuel st ≠ ValueError.
Proof.
  revert st. induction fuel as [|fuel IH]; intros st; [done|].
  cbn. destruct (scan st) as [[st1 ch] es] eqn:Hscan.
  destruct (scan_remove _ _ _ _ Hscan) as (K & -> & _).
  destruct ch; [apply IH | done].
Qed.

(** When the loop returns, the last pass found nothing to do: no sentence
    is empty and none resolves. *)
Lemma mines_safes_fixed fuel st st' :
  mines_safes fuel st = Ok st' →
  ∀ s, s ∈ knowledge st' →
       cells s ≠ ∅ ∧ len (cells s) ≠ count s ∧ count s ≠ 0.
Proof.
  revert fuel st st'.
  apply (mines_safes_ind (λ _ st', ∀ s, s ∈ knowledge st' →
           cells s ≠ ∅ ∧ len (cells s) ≠ count s ∧ count s ≠ 0)); [|auto].
  intros st st1 es K Hscan HK s Hs. cbn in Hs.
  destruct (scan_facts _ _ _ _ Hscan) as (_ & _ & Hemp & _ & _ & Hfix).
  destruct (Hfix eq_refl) as (-> & Hes & Hall).
  apply remove_each_perm in HK.
  assert (Hin : s ∈ knowledge st) by (rewrite HK, elem_of_app; by right).
  assert (Hne : cells s ≠ ∅).
  { intros He.
    assert (Hlen : length (filter (λ s, cells s = ∅) (knowledge st))
                   = (length es + length (filter (λ s, cells s = ∅) K))%nat).
    { rewrite HK at 1. rewrite filter_app, length_app. f_equal.
      f_equal. by apply filter_all. }
    rewrite <- Hes in Hlen.
    assert (Hs' : s ∈ filter (λ s, cells s = ∅) K)
      by (by apply list_elem_of_filter).
    destruct (filter (λ s, cells s = ∅) K); [by apply elem_of_nil in Hs'|].
    cbn in Hlen. lia. }
  split; [done|]. by apply Hall.
Qed.

(** A property of the state that every marking loop and every removal of
    sentences keeps is kept by [mines_safes]. *)
Lemma scan_preserves (P : MinesweeperAI → Prop) st0 st ch es :
  (∀ st s, P st → s ∈ knowledge st → cells s ≠ ∅ → len (cells s) = count s →
           P (set_fold mark_mine st (cells s))) →
  (∀ st s, P st → s ∈ knowledge st → cells s ≠ ∅ → count s = 0 →
           P (set_fold mark_safe st (cells s))) →
  P st0 → scan st0 = (st, ch, es) → P st.
Proof.
  intros Hm Hs H0 Hscan.
  apply (scan_ind (λ _ st _ _, P st) st0) with (ch := ch) (es := es); auto.
  intros i st1 ch1 es1 st2 ch2 es2 _ _ HP Hv.
  inversion Hv; subst; auto.
  - eapply Hm; eauto. by eapply list_elem_of_lookup_2.
  - eapply Hs; eauto. by eapply list_elem_of_lookup_2.
Qed.

Lemma mines_safes_preserves (P : MinesweeperAI → Prop) :
  (∀ st s, P st → s ∈ knowledge st → cells s ≠ ∅ → len (cells s) = count s →
           P (set_fold mark_mine st (cells s))) →
  (∀ st s, P st → s ∈ knowledge st → cells s ≠ ∅ → count s = 0 →
           P (set_fold mark_safe st (cells s))) →
  (∀ st K, P st → K ⊆+ knowledge st → P (set_knowledge K st)) →
  ∀ fuel st st', P st → mines_safes fuel st = Ok st' → P st'.
Proof.
  intros Hm Hs Hk fuel st st' HP Hrun. revert HP.
  revert fuel st st' Hrun.
  apply (mines_safes_ind (λ st st', P st → P st')).
  - intros st st1 es K Hscan HK HP. apply Hk.
    + eapply scan_preserves; eauto.
    + apply remove_each_perm in HK. rewrite HK. apply submseteq_inserts_l.
      done.
  - intros st st1 es K st' Hscan HK IH HP. apply IH. apply Hk.
    + eapply scan_preserves; eauto.
    + apply remove_each_perm in HK. rewrite HK. apply submseteq_inserts_l.
      done.
Qed.

(** [mines_safes] only adds to [mines] and [safes], and leaves the grid
    size and [moves_made] alone. *)
Lemma mines_safes_grows fuel st st' :
  mines_safes fuel st = Ok st' →
  height st' = height st ∧ width st' = width st
  ∧ moves_made st' = moves_made st
  ∧ mines st ⊆ mines st' ∧ safes st ⊆ safes st'.
Proof.
  intros Hrun.
  apply (mines_safes_preserves (λ st', height st' = height st
    ∧ width st' = width st ∧ moves_made st' = moves_made st
    ∧ mines st ⊆ mines st' ∧ safes st ⊆ safes st')) with (fuel := fuel) (st := st);
    auto.
  - intros st1 s (? & ? & ? & ? & ?) _ _ _. rewrite set_fold_mark_mine; cbn.
    split_and!; auto. set_solver.
  - intros st1 s (? & ? & ? & ? & ?) _ _ _. rewrite set_fold_mark_safe; cbn.
    split_and!; auto. set_solver.
Qed.

(** ** The derivation loop *)

(** Induction over the iterations of a run of the loop that returns. *)
Lemma derive_loop_ind (R : MinesweeperAI → MinesweeperAI → Prop) :
  (∀ st, len (moves_made st) ≠ len (safes st) → R st st) →
  (∀ st, len (moves_made st) = len (safes st) → inferences st = [] → R st st) →
  (∀ fuel st st1 st',
     len (moves_made st) = len (safes st) →
     inferences st ≠ [] →
     mines_safes fuel (set_knowledge (knowledge st ++ inferences st) st) = Ok st1 →
     R st1 st' →
     R st st') →
  ∀ fuel st st', derive_loop fuel st = Ok st' → R st st'.
Proof.
  intros Hguard Hbreak Hnext.
  induction fuel as [|fuel IH]; intros st st' H; [done|].
  cbn [derive_loop] in H.
  destruct (decide (len (moves_made st) = len (safes st))) as [Hg|Hg];
    [|injection H as <-; by apply Hguard].
  destruct (decide (length (inferences st) ≠ 0%nat)) as [Hn|Hn].
  - destruct (mines_safes (S fuel) _) as [st1| |] eqn:Hms; try done.
    cbn in H. eapply Hnext; eauto. intros E. by rewrite E in Hn.
  - injection H as <-. apply Hbreak; [done|].
    destruct (inferences st); [done | cbn in Hn; lia].
Qed.

(** Every sentence of a derivation pass takes its cells from a held
    sentence. *)
Lemma inferences_cells st t :
  t ∈ inferences st →
  cells t ≠ ∅ ∧ (t ∉ knowledge st)
  ∧ ∃ a b, a ∈ knowledge st ∧ b ∈ knowledge st ∧ cells a ⊆ cells b
           ∧ t = mkSentence (cells b ∖ cells a) (count b - count a).
Proof.
  intros Ht. apply elem_of_inferences in Ht as (i & j & a & b & _ & Ha & Hb & Ht).
  apply list_elem_of_lookup_2 in Ha, Hb.
  apply elem_of_infer_pair in Ht as (Hnew & Hne & [[Hsub ->]|(_ & Hsub & ->)]).
  - split_and!; auto. exists a, b. auto.
  - split_and!; auto. exists b, a. auto.
Qed.

(** ** Ingestion *)

Lemma foldr_ingest st (l : list cell) cnt :
  NoDup l →
  foldr (ingest_neighbour st) (cnt, ∅) l
  = (cnt - len (list_to_set l ∩ mines st),
     list_to_set l ∖ mines st ∖ safes st).
Proof.
  induction 1 as [|c l Hc Hl IH]; cbn.
  - f_equal; [|set_solver].
    assert ((∅ : gset cell) ∩ mines st = ∅) as -> by set_solver.
    unfold len. rewrite size_empty. lia.
  - rewrite IH. unfold ingest_neighbour; cbn.
    assert (Hc' : c ∉ (list_to_set l : gset cell)) by (by rewrite elem_of_list_to_set).
    assert (Hone : c ∈ mines st →
              len (({[c]} ∪ list_to_set l) ∩ mines st)
              = len (list_to_set l ∩ mines st) + 1).
    { intros Hm.
      assert (({[c]} ∪ list_to_set l) ∩ mines st
              = {[c]} ∪ list_to_set l ∩ mines st) as -> by set_solver.
      unfold len.
      rewrite (size_union (C:=gset cell) {[c]} (list_to_set l ∩ mines st))
        by set_solver.
      rewrite size_singleton. lia. }
    assert (Hsame : c ∉ mines st →
              ({[c]} ∪ list_to_set l) ∩ mines st = list_to_set l ∩ mines st)
      by set_solver.
    destruct (decide (c ∈ mines st)) as [Hm|Hm];
      [|destruct (decide (c ∉ safes st)) as [Hs|Hs]]; cbn; f_equal.
    + rewrite Hone by done. lia.
    + set_solver.
    + by rewrite Hsame.
    + set_solver.
    + by rewrite Hsame.
    + apply dec_stable in Hs. set_solver.
Qed.

(** Lines 188-199 in closed form: the new sentence holds the neighbours not
    yet known, with the count lowered by the number of neighbours known to
    be mines. *)
Lemma ingest_eq st c cnt :
  ingest st c cnt =
    let st1 := mark_safe c (set_moves_made ({[c]} ∪ moves_made st) st) in
    let N := get_neighbours st1 c in
    let new_knowledge := N ∖ mines st1 ∖ safes st1 in
    if decide (len new_knowledge > 0)
    then set_knowledge
           (knowledge st1 ++ [mkSentence new_knowledge (cnt - len (N ∩ mines st1))])
           st1
    else st1.
Proof.
  unfold ingest. cbn zeta. unfold set_fold; cbn [compose].
  rewrite foldr_ingest by apply NoDup_elements.
  by rewrite list_to_set_elements_L.
Qed.

(** ** Sentences never mention known cells *)

Lemma fresh_set_fold_mark_mine (X : gset cell) st :
  fresh st → fresh (set_fold mark_mine st X).
Proof.
  intros Hf. rewrite set_fold_mark_mine. intros s Hs c Hc; cbn in *.
  apply list_elem_of_fmap in Hs as (t & -> & Ht). cbn in Hc.
  destruct (Hf t Ht c); set_solver.
Qed.

Lemma fresh_set_fold_mark_safe (X : gset cell) st :
  fresh st → fresh (set_fold mark_safe st X).
Proof.
  intros Hf. rewrite set_fold_mark_safe. intros s Hs c Hc; cbn in *.
  apply list_elem_of_fmap in Hs as (t & -> & Ht). cbn in Hc.
  destruct (Hf t Ht c); set_solver.
Qed.

Lemma fresh_mark_mine c st : fresh st → fresh (mark_mine c st).
Proof. rewrite mark_mine_set_fold. apply fresh_set_fold_mark_mine. Qed.

Lemma fresh_mark_safe c st : fresh st → fresh (mark_safe c st).
Proof. rewrite mark_safe_set_fold. apply fresh_set_fold_mark_safe. Qed.

Lemma fresh_mines_safes fuel st st' :
  fresh st → mines_safes fuel st = Ok st' → fresh st'.
Proof.
  apply (mines_safes_preserves fresh).
  - intros st1 s Hf _ _ _. by apply fresh_set_fold_mark_mine.
  - intros st1 s Hf _ _ _. by apply fresh_set_fold_mark_safe.
  - intros st1 K Hf HK s Hs. apply (Hf s). by eapply elem_of_submseteq.
Qed.

Lemma fresh_ingest st c cnt : fresh st → fresh (ingest st c cnt).
Proof.
  intros Hf. rewrite ingest_eq. cbn zeta.
  set (st0 := set_moves_made _ st).
  assert (H0 : fresh st0) by exact Hf.
  apply (fresh_mark_safe c) in H0.
  destruct (decide _); [|done].
  intros s Hs x Hx. cbn in Hs. apply elem_of_app in Hs as [Hs|Hs].
  - by apply (H0 s).
  - apply list_elem_of_singleton in Hs as ->. cbn in Hx.
    change (safes (set_knowledge _ _)) with (safes (mark_safe c st0)).
    change (mines (set_knowledge _ _)) with (mines (mark_safe c st0)).
    set_solver.
Qed.

Lemma fresh_inferences st :
  fresh st → fresh (set_knowledge (knowledge st ++ inferences st) st).
Proof.
  intros Hf s Hs x Hx. cbn in *. apply elem_of_app in Hs as [Hs|Hs].
  - by apply (Hf s).
  - apply inferences_cells in Hs as (_ & _ & a & b & _ & Hb & _ & ->).
    cbn in Hx. apply (Hf b Hb). set_solver.
Qed.

Lemma fresh_derive_loop fuel st st' :
  fresh st → derive_loop fuel st = Ok st' → fresh st'.
Proof.
  intros Hf Hrun. revert Hf. revert fuel st st' Hrun.
  apply (derive_loop_ind (λ st st', fresh st → fresh st')); auto.
  intros fuel st st1 st' _ _ Hms IH Hf. apply IH.
  eapply fresh_mines_safes; [|exact Hms]. by apply fresh_inferences.
Qed.

Lemma add_knowledge_inv fuel st c cnt st' :
  add_knowledge fuel st c cnt = Ok st' →
  ∃ st1, mines_safes fuel (ingest st c cnt) = Ok st1
         ∧ derive_loop fuel st1 = Ok st'.
Proof.
  unfold add_knowledge. intros H.
  destruct (mines_safes fuel (ingest st c cnt)) as [st1| |]; try done.
  by exists st1.
Qed.

Lemma fresh_add_knowledge fuel st c cnt st' :
  fresh st → add_knowledge fuel st c cnt = Ok st' → fresh st'.
Proof.
  intros Hf H. apply add_knowledge_inv in H as (st1 & Hms & Hloop).
  eapply fresh_derive_loop; [|exact Hloop].
  eapply fresh_mines_safes; [|exact Hms]. by apply fresh_ingest.
Qed.

(** C10. In every engine state that the public operations produce from a
    new engine, each held sentence contains only cells that are neither in
    [safes] nor in [mines]. *)
Theorem sentences_exclude_known (st : MinesweeperAI) :
  reachable st →
  ∀ s, s ∈ knowledge st → ∀ c, c ∈ cells s → (c ∉ safes st) ∧ (c ∉ mines st).
Proof.
  induction 1 as [h w|c st _ IH|c st _ IH|fuel c cnt st st' _ IH Hadd].
  - intros s Hs. by apply elem_of_nil in Hs.
  - by apply fresh_mark_mine.
  - by apply fresh_mark_safe.
  - by eapply fresh_add_knowledge.
Qed.

(** C10, witness: a 2x2 board after [add_knowledge((1,1), 1)]. *)
Lemma sentences_exclude_known_witness :
  let st := mkAI 2 2 {[(1, 1)]} ∅ {[(1, 1)]}
              [mkSentence {[(0, 0); (0, 1); (1, 0)]} 1] in
  ((0, 0) ∉ safes st) ∧ ((0, 0) ∉ mines st).
Proof.
  cbn zeta.
  apply (sentences_exclude_known
           (mkAI 2 2 {[(1, 1)]} ∅ {[(1, 1)]}
              [mkSentence {[(0, 0); (0, 1); (1, 0)]} 1]))
    with (s := mkSentence {[(0, 0); (0, 1); (1, 0)]} 1).
  - apply (reach_add_knowledge 2%nat (1, 1) 1 (init 2 2)); [constructor|].
    vm_compute. reflexivity.
  - left.
  - cbn. set_solver.
Defined.

(** ** Cleanup of resolved sentences *)

(** A pass that meets the sentence [{x} = 0] at index [i] leaves [x] known:
    either an earlier iteration has marked [x], or this iteration marks it
    safe.  When no earlier sentence mentions [x], it is marked safe. *)
Lemma scan_resolves_zero st0 st ch es i x :
  knowledge st0 !! i = Some (mkSentence {[x]} 0) →
  scan st0 = (st, ch, es) →
  (x ∈ safes st ∨ x ∈ mines st)
  ∧ ((∀ j s, (j < i)%nat → knowledge st0 !! j = Some s → x ∉ cells s) →
     x ∈ safes st).
Proof.
  intros Hi Hscan.
  pose (I := λ (k : nat) (st : MinesweeperAI) (_ : bool) (_ : list Sentence),
    ((x ∈ safes st ∨ x ∈ mines st)
     ∨ ((k ≤ i)%nat ∧ knowledge st !! i = Some (mkSentence {[x]} 0)))
    ∧ ((∀ j s, (j < i)%nat → knowledge st0 !! j = Some s → x ∉ cells s) →
       x ∈ safes st
       ∨ ((k ≤ i)%nat ∧ knowledge st !! i = Some (mkSentence {[x]} 0)
          ∧ ∀ j s, (j < i)%nat → knowledge st !! j = Some s → x ∉ cells s))).
  destruct (scan_ind I st0) with (st := st) (ch := ch) (es := es)
    as (_ & H1 & H2); [| |done|].
  - unfold I. split; [right; split; [lia|done]|].
    intros Hno. right. split_and!; [lia|done|done].
  - clear Hscan st ch es. intros k st ch es st' ch' es' Hk Hlen [H1 H2] Hv.
    inversion Hv as [Hn|s Hs He|s Hs Hne Hm|s Hs Hne Hz|s Hs Hne Hm Hz]; subst.
    + apply lookup_ge_None in Hn. lia.
    + unfold I. split.
      * destruct H1 as [?|[Hle Hx]]; [by left|].
        destruct (decide (k = i)) as [->|]; [|right; split; [lia|done]].
        rewrite Hx in Hs. injection Hs as <-. cbn in He. set_solver.
      * intros Hno. destruct (H2 Hno) as [?|(Hle & Hx & Hj)]; [by left|].
        destruct (decide (k = i)) as [->|]; [|right; split_and!; [lia|done|done]].
        rewrite Hx in Hs. injection Hs as <-. cbn in He. set_solver.
    + rewrite set_fold_mark_mine. unfold I; cbn. split.
      * destruct H1 as [[?|?]|[Hle Hx]]; [left; left; done|left; right; set_solver|].
        destruct (decide (x ∈ cells s)); [left; right; set_solver|].
        destruct (decide (k = i)) as [->|].
        { rewrite Hx in Hs. injection Hs as <-. cbn in *. set_solver. }
        right. split; [lia|]. rewrite list_lookup_fmap, Hx. cbn.
        unfold minus_mines; cbn. f_equal. f_equal; [set_solver|].
        assert (({[x]} : gset cell) ∩ cells s = ∅) as -> by set_solver.
        unfold len. rewrite size_empty. lia.
      * intros Hno. destruct (H2 Hno) as [?|(Hle & Hx & Hj)]; [by left|].
        destruct (decide (k = i)) as [->|].
        { rewrite Hx in Hs. injection Hs as <-. cbn in *.
          unfold len in Hm. rewrite size_singleton in Hm. lia. }
        assert (Hxs : x ∉ cells s) by (apply (Hj k); [lia|done]).
        right. split_and!; [lia| |].
        -- rewrite list_lookup_fmap, Hx. cbn.
           unfold minus_mines; cbn. f_equal. f_equal; [set_solver|].
           assert (({[x]} : gset cell) ∩ cells s = ∅) as -> by set_solver.
           unfold len. rewrite size_empty. lia.
        -- intros j t Hji Ht. rewrite list_lookup_fmap in Ht.
           destruct (knowledge st !! j) as [t0|] eqn:Ht0; [|done].
           injection Ht as <-. cbn. specialize (Hj j t0 Hji Ht0). set_solver.
    + rewrite set_fold_mark_safe. unfold I; cbn. split.
      * destruct H1 as [[?|?]|[Hle Hx]]; [left; left; set_solver|left; right; done|].
        destruct (decide (x ∈ cells s)); [left; left; set_solver|].
        destruct (decide (k = i)) as [->|].
        { rewrite Hx in Hs. injection Hs as <-. cbn in *. set_solver. }
        right. split; [lia|]. rewrite list_lookup_fmap, Hx. cbn.
        unfold minus_safes; cbn. f_equal. f_equal. set_solver.
      * intros Hno. destruct (H2 Hno) as [?|(Hle & Hx & Hj)]; [left; set_solver|].
        destruct (decide (k = i)) as [->|].
        { rewrite Hx in Hs. injection Hs as <-. cbn in *. left. set_solver. }
        assert (Hxs : x ∉ cells s) by (apply (Hj k); [lia|done]).
        right. split_and!; [lia| |].
        -- rewrite list_lookup_fmap, Hx. cbn.
           unfold minus_safes; cbn. f_equal. f_equal. set_solver.
        -- intros j t Hji Ht. rewrite list_lookup_fmap in Ht.
           destruct (knowledge st !! j) as [t0|] eqn:Ht0; [|done].
           injection Ht as <-. cbn. specialize (Hj j t0 Hji Ht0). set_solver.
    + unfold I. split.
      * destruct H1 as [?|[Hle Hx]]; [by left|].
        destruct (decide (k = i)) as [->|]; [|right; split; [lia|done]].
        rewrite Hx in Hs. injection Hs as <-. cbn in Hz. done.
      * intros Hno. destruct (H2 Hno) as [?|(Hle & Hx & Hj)]; [by left|].
        destruct (decide (k = i)) as [->|]; [|right; split_and!; [lia|done|done]].
        rewrite Hx in Hs. injection Hs as <-. cbn in Hz. done.
  - apply lookup_lt_Some in Hi. split.
    + destruct H1 as [?|[? _]]; [done | lia].
    + intros Hno. destruct (H2 Hno) as [?|[? _]]; [done | lia].
Qed.

Lemma mines_safes_first_pass fuel st st' :
  mines_safes fuel st = Ok st' →
  ∃ st1 ch es, scan st = (st1, ch, es)
               ∧ safes st1 ⊆ safes st' ∧ mines st1 ⊆ mines st'.
Proof.
  destruct fuel as [|fuel]; [done|]. cbn.
  destruct (scan st) as [[st1 ch] es] eqn:Hscan.
  destruct (remove_each es (knowledge st1)) as [K|]; [|done].
  intros H. exists st1, ch, es. split; [done|]. destruct ch.
  - apply mines_safes_grows in H as (_ & _ & _ & Hm & Hs). done.
  - by injection H as <-.
Qed.

(** ** Ingestion runs unchecked, and derivation stops at the guard *)

Lemma derive_loop_grows fuel st st' :
  derive_loop fuel st = Ok st' →
  moves_made st' = moves_made st ∧ safes st ⊆ safes st'.
Proof.
  revert fuel st st'.
  apply (derive_loop_ind (λ st st',
           moves_made st' = moves_made st ∧ safes st ⊆ safes st')); auto.
  intros fuel st st1 st' _ _ Hms [IH1 IH2].
  apply mines_safes_grows in Hms as (_ & _ & Hmv & _ & Hs). cbn in *.
  split; [congruence | set_solver].
Qed.

Lemma derive_loop_no_error fuel st : derive_loop fuel st ≠ ValueError.
Proof.
  revert st. induction fuel as [|fuel IH]; intros st; [done|].
  cbn [derive_loop]. destruct (decide _); [|done].
  destruct (decide _); [|done].
  pose proof (mines_safes_no_error (S fuel)
    (set_knowledge (knowledge st ++ inferences st) st)) as Hne.
  destruct (mines_safes (S fuel) _); cbn; [apply IH | done | done].
Qed.

Lemma ingest_records st c cnt :
  c ∈ moves_made (ingest st c cnt) ∧ c ∈ safes (ingest st c cnt).
Proof.
  rewrite ingest_eq. cbn zeta. destruct (decide _); cbn; set_solver.
Qed.

Lemma mines_safes_length fuel st st' :
  mines_safes fuel st = Ok st' →
  (length (knowledge st') ≤ length (knowledge st))%nat.
Proof.
  intros Hrun.
  apply (mines_safes_preserves
    (λ st', (length (knowledge st') ≤ length (knowledge st))%nat))
    with (fuel := fuel) (st := st); auto.
  - intros st1 s H _ _ _. by rewrite set_fold_mark_mine_length.
  - intros st1 s H _ _ _. by rewrite set_fold_mark_safe_length.
  - intros st1 K H HK. cbn. apply submseteq_length in HK. lia.
Qed.

Lemma inferences_short st : (length (knowledge st) ≤ 1)%nat → inferences st = [].
Proof.
  intros H. unfold inferences. cbn zeta.
  replace (length (knowledge st) - 1)%nat with 0%nat by lia. done.
Qed.

(** C2 (as the code has it). [add_knowledge] checks neither the cell nor
    the count: it never raises; every call that returns has recorded the
    cell in [moves_made] and in [safes], whether or not the cell lies in
    the grid and whatever the count; and on a new engine the call returns
    for every cell and every count. *)
Theorem add_knowledge_unchecked :
  (∀ fuel st c cnt, add_knowledge fuel st c cnt ≠ ValueError)
  ∧ (∀ fuel st c cnt st',
       add_knowledge fuel st c cnt = Ok st' →
       c ∈ moves_made st' ∧ c ∈ safes st')
  ∧ (∀ h w c cnt, ∃ st', add_knowledge 2 (init h w) c cnt = Ok st').
Proof.
  split_and!.
  - intros fuel st c cnt. unfold add_knowledge.
    pose proof (mines_safes_no_error fuel (ingest st c cnt)) as Hne.
    destruct (mines_safes fuel _); cbn; [apply derive_loop_no_error|done|done].
  - intros fuel st c cnt st' H.
    apply add_knowledge_inv in H as (st1 & Hms & Hloop).
    destruct (ingest_records st c cnt) as [Hm Hs].
    apply mines_safes_grows in Hms as (_ & _ & Hmv & _ & Hsf).
    apply derive_loop_grows in Hloop as [Hmv' Hsf'].
    split; [congruence | set_solver].
  - intros h w c cnt. unfold add_knowledge.
    assert (Hlen : (length (knowledge (ingest (init h w) c cnt)) ≤ 1)%nat).
    { rewrite ingest_eq. cbn zeta. destruct (decide _); cbn; lia. }
    destruct (mines_safes_terminates 2 (ingest (init h w) c cnt)) as [st1 Hms].
    { unfold nonempty_count.
      pose proof (length_filter (λ s, cells s ≠ ∅)
                    (knowledge (ingest (init h w) c cnt))). lia. }
    rewrite Hms. cbn [mbind result_bind].
    apply mines_safes_length in Hms.
    exists st1. cbn [derive_loop]. destruct (decide _); [|done].
    rewrite inferences_short by lia. done.
Qed.

(** C2, witness: a cell above the top row, with a count of 100. *)
Lemma add_knowledge_unchecked_witness :
  let st' := mkAI 8 8 {[(-1, 0)]} ∅ {[(-1, 0)]}
               [mkSentence {[(0, 0); (0, 1)]} 100] in
  (-1, 0) ∈ moves_made st' ∧ (-1, 0) ∈ safes st'.
Proof.
  cbn zeta.
  destruct add_knowledge_unchecked as (_ & H & _).
  apply (H 2%nat (init 8 8) (-1, 0) 100). vm_compute. reflexivity.
Defined.

(** C2 as stated fails: a cell outside the 8x8 grid with an over-large
    count, and a corner cell with a negative count, are both ingested and
    leave a sentence in the knowledge base. *)
Lemma add_knowledge_accepts_bad_input :
  add_knowledge 2 (init 8 8) (-1, 0) 100
  = Ok (mkAI 8 8 {[(-1, 0)]} ∅ {[(-1, 0)]} [mkSentence {[(0, 0); (0, 1)]} 100])
  ∧ add_knowledge 2 (init 8 8) (0, 0) (-3)
    = Ok (mkAI 8 8 {[(0, 0)]} ∅ {[(0, 0)]}
            [mkSentence {[(0, 1); (1, 0); (1, 1)]} (-3)]).
Proof. split; vm_compute; reflexivity. Qed.

(** C1 (as the code has it). When [add_knowledge] returns a state in which
    [len(moves_made) == len(safes)], one more derivation pass returns no
    sentence.  (When the two sizes differ the loop is not entered, or is
    left, without that guarantee.) *)
Theorem derivation_fixpoint_under_guard fuel st c cnt st' :
  add_knowledge fuel st c cnt = Ok st' →
  len (moves_made st') = len (safes st') →
  inferences st' = [].
Proof.
  intros H. apply add_knowledge_inv in H as (st1 & _ & Hloop).
  revert fuel st1 st' Hloop.
  apply (derive_loop_ind (λ _ st',
           len (moves_made st') = len (safes st') → inferences st' = []));
    auto; done.
Qed.

(** C1, witness: on a 2x7 board, after [(0,0)] was revealed with count 1,
    revealing [(0,1)] with count 2 derives [{(0,2),(1,2)} = 1] and then
    stops at a fixed point. *)
Lemma derivation_fixpoint_under_guard_witness :
  inferences
    (mkAI 2 7 {[(0, 0); (0, 1)]} ∅ {[(0, 0); (0, 1)]}
       [mkSentence {[(1, 0); (1, 1)]} 1;
        mkSentence {[(0, 2); (1, 0); (1, 1); (1, 2)]} 2;
        mkSentence {[(0, 2); (1, 2)]} 1]) = [].
Proof.
  apply (derivation_fixpoint_under_guard 3
           (mkAI 2 7 {[(0, 0)]} ∅ {[(0, 0)]}
              [mkSentence {[(0, 1); (1, 0); (1, 1)]} 1])
           (0, 1) 2).
  - vm_compute. reflexivity.
  - vm_compute. reflexivity.
Defined.

(** C1 as stated fails.  On a 2x7 board, revealing [(0,5)] with count 0
    makes five more cells safe, so [safes] outgrows [moves_made]; the later
    calls for [(0,0)] and [(0,1)] return without entering the derivation
    loop, although a pass over the result derives [{(0,2),(1,2)} = 1]. *)
Lemma derivation_skipped_by_guard :
  let far : gset cell := {[(0, 4); (0, 5); (0, 6); (1, 4); (1, 5); (1, 6)]} in
  let st1 := mkAI 2 7 {[(0, 5)]} ∅ far [] in
  let st2 := mkAI 2 7 {[(0, 0); (0, 5)]} ∅ ({[(0, 0)]} ∪ far)
               [mkSentence {[(0, 1); (1, 0); (1, 1)]} 1] in
  let st3 := mkAI 2 7 {[(0, 0); (0, 1); (0, 5)]} ∅ ({[(0, 0); (0, 1)]} ∪ far)
               [mkSentence {[(1, 0); (1, 1)]} 1;
                mkSentence {[(0, 2); (1, 0); (1, 1); (1, 2)]} 2] in
  add_knowledge 2 (init 2 7) (0, 5) 0 = Ok st1
  ∧ add_knowledge 2 st1 (0, 0) 1 = Ok st2
  ∧ add_knowledge 2 st2 (0, 1) 2 = Ok st3
  ∧ inferences st3 = [mkSentence {[(0, 2); (1, 2)]} 1].
Proof. cbn zeta. split_and!; vm_compute; reflexivity. Qed.

(** ** Truthful inputs *)

(** The two nested loops over the 3x3 box visit the cells of one list. *)
Lemma nested_foldl {A : Type} (f : A → cell → A) (a : A) (li lj : list Z) :
  foldl (λ acc i, foldl (λ acc j, f acc (i, j)) acc lj) a li
  = foldl f a (i ← li; j ← lj; [(i, j)]).
Proof.
  revert a. induction li as [|i li IH]; intros a; [done|].
  cbn [foldl]. rewrite IH. change ((i :: li) ≫= ?g) with (g i ++ (li ≫= g)).
  rewrite foldl_app. f_equal.
  clear IH. revert a. induction lj as [|j lj IH]; intros a; [done|].
  cbn. apply IH.
Qed.

Lemma NoDup_box (li lj : list Z) :
  NoDup li → NoDup lj → NoDup (i ← li; j ← lj; [(i, j)]).
Proof.
  intros Hi Hj. apply NoDup_bind; [| |done].
  - intros i1 i2 c _ _ H1 H2.
    apply list_elem_of_bind in H1 as (j1 & H1 & _).
    apply list_elem_of_bind in H2 as (j2 & H2 & _).
    apply list_elem_of_singleton in H1, H2. congruence.
  - intros i _. apply NoDup_bind; [| |done].
    + intros j1 j2 c _ _ H1 H2.
      apply list_elem_of_singleton in H1, H2. congruence.
    + intros j _. apply NoDup_singleton.
Qed.

(** What the board reports for a cell is the number of mines among the
    neighbours the engine computes for it. *)
Lemma nearby_mines_neighbours st M c :
  nearby_mines (height st) (width st) M c = len (get_neighbours st c ∩ M).
Proof.
  unfold nearby_mines, get_neighbours.
  pose (fN := λ (acc : gset cell) (p : cell),
          if decide (p = c) then acc
          else if decide (0 ≤ p.1 < height st ∧ 0 ≤ p.2 < width st)
               then {[p]} ∪ acc else acc).
  pose (fC := λ (cnt : Z) (p : cell),
          if decide (p = c) then cnt
          else if decide (0 ≤ p.1 < height st ∧ 0 ≤ p.2 < width st)
               then (if decide (p ∈ M) then cnt + 1 else cnt) else cnt).
  rewrite (nested_foldl fC), (nested_foldl fN).
  assert (Hgen : ∀ (l : list cell) (X : gset cell) (n : Z),
            NoDup l → (∀ p, p ∈ l → p ∉ X) →
            foldl fC n l - n = len (foldl fN X l ∩ M) - len (X ∩ M)).
  { induction l as [|p l IH]; intros X n Hnd Hdis; cbn; [lia|].
    apply NoDup_cons in Hnd as [Hp Hnd].
    assert (HpX : p ∉ X) by (apply Hdis; left).
    assert (Hstep : fC n p - n = len (fN X p ∩ M) - len (X ∩ M)).
    { unfold fC, fN.
      destruct (decide (p = c)); [lia|].
      destruct (decide _); [|lia].
      destruct (decide (p ∈ M)) as [HM|HM].
      + assert (({[p]} ∪ X) ∩ M = {[p]} ∪ X ∩ M) as -> by set_solver.
        unfold len. rewrite (size_union (C:=gset cell) {[p]} (X ∩ M)) by set_solver.
        rewrite size_singleton. lia.
      + assert (({[p]} ∪ X) ∩ M = X ∩ M) as -> by set_solver. lia. }
    assert (Hrest : foldl fC (fC n p) l - fC n p
                    = len (foldl fN (fN X p) l ∩ M) - len (fN X p ∩ M)).
    { apply IH; [done|]. intros q Hq. unfold fN.
      assert (q ≠ p) by (intros ->; done).
      assert (q ∉ X) by (apply Hdis; by right).
      destruct (decide (p = c)); [done|]. destruct (decide _); set_solver. }
    lia. }
  specialize (Hgen (i ← zrange (c.1 - 1) (c.1 + 2);
                    j ← zrange (c.2 - 1) (c.2 + 2); [(i, j)]) ∅ 0).
  assert ((∅ : gset cell) ∩ M = ∅) as HE by set_solver.
  rewrite HE in Hgen. unfold len at 2 in Hgen. rewrite size_empty in Hgen.
  cut (∀ a b : Z, a - 0 = b - Z.of_nat 0 → a = b); [|intros; lia].
  intros Hcut. apply Hcut, Hgen; [|set_solver].
  apply NoDup_box; apply NoDup_seqZ.
Qed.

Lemma sound_bounds (M : gset cell) st :
  sound M st → ∀ s, s ∈ knowledge st → 0 ≤ count s ≤ len (cells s).
Proof.
  intros (_ & _ & Hk) s Hs. rewrite (Hk s Hs). unfold len.
  pose proof (subseteq_size (cells s ∩ M) (cells s)) as Hle.
  split; [lia|]. apply inj_le, Hle. set_solver.
Qed.

Lemma sound_disjoint (M : gset cell) st : sound M st → safes st ## mines st.
Proof. intros (Hm & Hs & _). set_solver. Qed.

Lemma len_split (X Y M : gset cell) :
  Y ⊆ M → len (X ∩ M) = len (X ∩ Y) + len ((X ∖ Y) ∩ M).
Proof.
  intros HY. unfold len. rewrite <- Nat2Z.inj_add.
  rewrite <- (size_union (C:=gset cell) (X ∩ Y) ((X ∖ Y) ∩ M)) by set_solver.
  f_equal. f_equal. apply set_eq. intros x.
  rewrite elem_of_union, !elem_of_intersection, elem_of_difference.
  destruct (decide (x ∈ Y)); set_solver.
Qed.

Lemma sound_set_fold_mark_mine (M : gset cell) (X : gset cell) st :
  sound M st → X ⊆ M → sound M (set_fold mark_mine st X).
Proof.
  intros (Hm & Hs & Hk) HX. rewrite set_fold_mark_mine.
  split_and!; cbn; [set_solver|done|].
  intros s Hin. apply list_elem_of_fmap in Hin as (t & -> & Ht). cbn.
  rewrite (Hk t Ht). rewrite (len_split (cells t) X M HX). lia.
Qed.

Lemma sound_set_fold_mark_safe (M : gset cell) (X : gset cell) st :
  sound M st → X ## M → sound M (set_fold mark_safe st X).
Proof.
  intros (Hm & Hs & Hk) HX. rewrite set_fold_mark_safe.
  split_and!; cbn; [done|set_solver|].
  intros s Hin. apply list_elem_of_fmap in Hin as (t & -> & Ht). cbn.
  rewrite (Hk t Ht). f_equal. set_solver.
Qed.

Lemma sound_mines_safes (M : gset cell) fuel st st' :
  sound M st → mines_safes fuel st = Ok st' → sound M st'.
Proof.
  apply (mines_safes_preserves (sound M)).
  - intros st1 s Hsd Hs Hne Hfull. apply sound_set_fold_mark_mine; [done|].
    destruct Hsd as (_ & _ & Hk). rewrite (Hk s Hs) in Hfull.
    assert (cells s ∩ M = cells s) as <-; [|set_solver].
    apply set_subseteq_size_eq; [set_solver|]. unfold len in Hfull. lia.
  - intros st1 s Hsd Hs Hne Hz. apply sound_set_fold_mark_safe; [done|].
    destruct Hsd as (_ & _ & Hk). rewrite (Hk s Hs) in Hz.
    apply len_zero_iff in Hz. set_solver.
  - intros st1 K (Hm & Hs & Hk) HK. split_and!; cbn; auto.
    intros s Hin. apply Hk. by eapply elem_of_submseteq.
Qed.

Lemma sound_inferences (M : gset cell) st :
  sound M st → sound M (set_knowledge (knowledge st ++ inferences st) st).
Proof.
  intros (Hm & Hs & Hk). split_and!; cbn; auto.
  intros t Ht. apply elem_of_app in Ht as [Ht|Ht]; [by apply Hk|].
  apply inferences_cells in Ht as (_ & _ & a & b & Ha & Hb & Hsub & ->). cbn.
  rewrite (Hk a Ha), (Hk b Hb).
  rewrite (len_split (cells b) (cells a ∩ M) M) by set_solver.
  assert (cells b ∩ (cells a ∩ M) = cells a ∩ M) as -> by set_solver.
  assert ((cells b ∖ (cells a ∩ M)) ∩ M = (cells b ∖ cells a) ∩ M) as ->.
  { apply set_eq. intros x. set_solver. }
  lia.
Qed.

Lemma sound_derive_loop (M : gset cell) fuel st st' :
  sound M st → derive_loop fuel st = Ok st' → sound M st'.
Proof.
  intros Hsd Hrun. revert Hsd. revert fuel st st' Hrun.
  apply (derive_loop_ind (λ st st', sound M st → sound M st')); auto.
  intros fuel st st1 st' _ _ Hms IH Hsd. apply IH.
  eapply sound_mines_safes; [|exact Hms]. by apply sound_inferences.
Qed.

Lemma sound_mark_mine (M : gset cell) c st : sound M st → c ∈ M → sound M (mark_mine c st).
Proof.
  intros Hsd Hc. rewrite mark_mine_set_fold.
  apply sound_set_fold_mark_mine; [done | set_solver].
Qed.

Lemma sound_mark_safe (M : gset cell) c st : sound M st → c ∉ M → sound M (mark_safe c st).
Proof.
  intros Hsd Hc. rewrite mark_safe_set_fold.
  apply sound_set_fold_mark_safe; [done | set_solver].
Qed.

Lemma sound_ingest (M : gset cell) st c :
  sound M st → c ∉ M →
  sound M (ingest st c (nearby_mines (height st) (width st) M c)).
Proof.
  intros Hsd Hc. rewrite ingest_eq. cbn zeta.
  set (st0 := set_moves_made _ st).
  assert (H0 : sound M st0) by exact Hsd.
  apply (sound_mark_safe M c) in H0; [|done].
  destruct (decide _); [|done].
  destruct H0 as (Hm & Hs & Hk). split_and!; [done|done|].
  intros s Hin. cbn in Hin. apply elem_of_app in Hin as [Hin|Hin]; [by apply Hk|].
  apply list_elem_of_singleton in Hin as ->. cbn [count cells].
  change (height st) with (height (mark_safe c st0)).
  change (width st) with (width (mark_safe c st0)).
  rewrite nearby_mines_neighbours.
  set (N := get_neighbours (mark_safe c st0) c).
  rewrite (len_split N (mines (mark_safe c st0)) M Hm).
  assert ((N ∖ mines (mark_safe c st0)) ∩ M
          = (N ∖ mines (mark_safe c st0) ∖ safes (mark_safe c st0)) ∩ M) as ->.
  { apply set_eq. intros x. set_solver. }
  change (mines st) with (mines (mark_safe c st0)).
  change ({[c]} ∪ safes st) with (safes (mark_safe c st0)).
  lia.
Qed.

Lemma sound_add_knowledge (M : gset cell) fuel st c st' :
  sound M st → c ∉ M →
  add_knowledge fuel st c (nearby_mines (height st) (width st) M c) = Ok st' →
  sound M st'.
Proof.
  intros Hsd Hc H. apply add_knowledge_inv in H as (st1 & Hms & Hloop).
  eapply sound_derive_loop; [|exact Hloop].
  eapply sound_mines_safes; [|exact Hms]. by apply sound_ingest.
Qed.

Lemma truthful_sound (M : gset cell) st : truthful M st → sound M st.
Proof.
  induction 1 as [h w|c st _ IH Hc|c st _ IH Hc|fuel c st st' _ IH Hc Hadd].
  - split_and!; cbn; [set_solver|set_solver|].
    intros s Hs. by apply elem_of_nil in Hs.
  - by apply sound_mark_mine.
  - by apply sound_mark_safe.
  - by eapply sound_add_knowledge.
Qed.

(** C3 (as the code has it). After every sequence of operations whose
    arguments are true of one mine layout, every held sentence satisfies
    [0 <= count <= len(cells)].  (The engine does not check the counts it
    is given, so untruthful calls break the bound.) *)
Theorem count_within_bounds (M : gset cell) (st : MinesweeperAI) :
  truthful M st →
  ∀ s, s ∈ knowledge st → 0 ≤ count s ≤ len (cells s).
Proof. intros H. by apply (sound_bounds M), truthful_sound. Qed.

(** C3, witness: a 2x2 board with its mine at [(0,0)], after revealing
    [(1,1)]. *)
Lemma count_within_bounds_witness :
  let s := mkSentence {[(0, 0); (0, 1); (1, 0)]} 1 in
  0 ≤ count s ≤ len (cells s).
Proof.
  cbn zeta.
  apply (count_within_bounds {[(0, 0)]}
           (mkAI 2 2 {[(1, 1)]} ∅ {[(1, 1)]}
              [mkSentence {[(0, 0); (0, 1); (1, 0)]} 1])).
  - apply (truthful_add_knowledge _ 2%nat (1, 1) (init 2 2)).
    + constructor.
    + set_solver.
    + vm_compute. reflexivity.
  - left.
Defined.

(** C3 as stated fails: a count of 5 for the corner of an 8x8 board, which
    has three neighbours, is stored as it is. *)
Lemma count_exceeds_cells :
  let s := mkSentence {[(0, 1); (1, 0); (1, 1)]} 5 in
  add_knowledge 2 (init 8 8) (0, 0) 5
  = Ok (mkAI 8 8 {[(0, 0)]} ∅ {[(0, 0)]} [s])
  ∧ ¬ (0 ≤ count s ≤ len (cells s)).
Proof.
  cbn zeta. split; [vm_compute; reflexivity|].
  vm_compute. intros [_ H]. by apply H.
Qed.

(** C4 (as the code has it). After every sequence of operations whose
    arguments are true of one mine layout, [safes] and [mines] are
    disjoint.  The engine makes no check of its own: [mark_mine(c)]
    followed by [mark_safe(c)] returns with [c] in both sets. *)
Theorem safes_mines_disjoint :
  (∀ (M : gset cell) (st : MinesweeperAI),
     truthful M st → ∀ c, ¬ (c ∈ safes st ∧ c ∈ mines st))
  ∧ (∀ (c : cell) (st : MinesweeperAI),
       c ∈ safes (mark_safe c (mark_mine c st))
       ∧ c ∈ mines (mark_safe c (mark_mine c st))).
Proof.
  split.
  - intros M st H c [Hs Hm].
    apply truthful_sound, sound_disjoint in H. set_solver.
  - intros c st. cbn. set_solver.
Qed.

(** C4, witness: a 1x2 board with its mine at [(0,1)], after revealing
    [(0,0)]: the engine has marked [(0,1)] as a mine and not as safe. *)
Lemma safes_mines_disjoint_witness :
  ¬ ((0, 1) ∈ safes (mkAI 1 2 {[(0, 0)]} {[(0, 1)]} {[(0, 0)]} [])
     ∧ (0, 1) ∈ mines (mkAI 1 2 {[(0, 0)]} {[(0, 1)]} {[(0, 0)]} [])).
Proof.
  destruct safes_mines_disjoint as [H _].
  apply (H {[(0, 1)]}).
  apply (truthful_add_knowledge _ 2%nat (0, 0) (init 1 2)).
  - constructor.
  - set_solver.
  - vm_compute. reflexivity.
Defined.

(** C4 as stated fails: marking one cell as a mine and as safe is not
    flagged, and leaves the cell in both sets. *)
Lemma cell_both_safe_and_mine :
  let st := mark_safe (0, 0) (mark_mine (0, 0) (init 8 8)) in
  st = mkAI 8 8 ∅ {[(0, 0)]} {[(0, 0)]} []
  ∧ (0, 0) ∈ safes st ∧ (0, 0) ∈ mines st.
Proof.
  cbn zeta. split; [vm_compute; reflexivity|]. cbn. set_solver.
Qed.

(** ** Cleanup of resolved sentences, on consistent states *)

(** C7 (as the code has it). [mines_safes] returns, and then no held
    sentence has an empty cell set.  A sentence [{x} = 0] held before the
    call is no longer held afterwards, and [x] is in [safes] whenever the
    state agrees with some mine layout [M] (the cells of [mines] are mines,
    no cell of [safes] is, and every held sentence counts the mines among
    its cells), as every state built from truthful operations does.
    Without such a layout [x] is still known, but possibly as a mine. *)
Theorem mines_safes_cleanup (st : MinesweeperAI) :
  ∃ st', mines_safes (S (nonempty_count (knowledge st))) st = Ok st'
    ∧ (∀ s, s ∈ knowledge st' → cells s ≠ ∅)
    ∧ (∀ x, mkSentence {[x]} 0 ∈ knowledge st →
         (mkSentence {[x]} 0 ∉ knowledge st')
         ∧ (x ∈ safes st' ∨ x ∈ mines st')
         ∧ (∀ M : gset cell, sound M st → x ∈ safes st')).
Proof.
  destruct (mines_safes_terminates (S (nonempty_count (knowledge st))) st)
    as [st' Hrun]; [lia|].
  exists st'. split; [done|]. split.
  - intros s Hs. by destruct (mines_safes_fixed _ _ _ Hrun s Hs).
  - intros x Hx.
    assert (Hknown : x ∈ safes st' ∨ x ∈ mines st').
    { apply list_elem_of_lookup_1 in Hx as [i Hi].
      destruct (mines_safes_first_pass _ _ _ Hrun)
        as (st1 & ch & es & Hscan & Hs & Hm).
      destruct (scan_resolves_zero _ _ _ _ _ _ Hi Hscan) as [[?|?] _];
        set_solver. }
    split_and!; [|done|].
    + intros Hin. destruct (mines_safes_fixed _ _ _ Hrun _ Hin) as (_ & _ & Hz).
      by apply Hz.
    + intros M Hsd.
      pose proof (sound_mines_safes M _ _ _ Hsd Hrun) as (Hm' & _ & _).
      destruct Hsd as (_ & _ & Hk). specialize (Hk _ Hx). cbn in Hk.
      symmetry in Hk. apply len_zero_iff in Hk.
      destruct Hknown as [?|Hmine]; [done|]. exfalso. set_solver.
Qed.

(** C7, witness: the knowledge base [[{x, y} = 1; {x} = 0]] for
    [x = (0,0)] and [y = (0,1)], which agrees with the layout whose only
    mine is [y]: the first sentence is visited first and [x] ends in
    [safes]. *)
Lemma mines_safes_cleanup_witness :
  ∃ st', mines_safes 3
           (mkAI 2 2 ∅ ∅ ∅
              [mkSentence {[(0, 0); (0, 1)]} 1; mkSentence {[(0, 0)]} 0])
         = Ok st'
         ∧ (mkSentence {[(0, 0)]} 0 ∉ knowledge st')
         ∧ (0, 0) ∈ safes st'.
Proof.
  destruct (mines_safes_cleanup
              (mkAI 2 2 ∅ ∅ ∅
                 [mkSentence {[(0, 0); (0, 1)]} 1; mkSentence {[(0, 0)]} 0]))
    as (st' & Hrun & _ & Hx).
  exists st'. split; [exact Hrun|].
  destruct (Hx (0, 0)) as (Hgone & _ & Hsafe); [cbn; set_solver|].
  split; [exact Hgone|]. apply (Hsafe {[(0, 1)]}).
  split_and!; cbn; [set_solver|set_solver|].
  intros s Hs. apply elem_of_cons in Hs as [->|Hs];
    [vm_compute; reflexivity|].
  apply list_elem_of_singleton in Hs as ->. vm_compute. reflexivity.
Defined.

(** C7 as stated fails.  On a 2x2 board, after [add_knowledge((1,1), 1)]
    and [add_knowledge((0,0), 1)], the call [add_knowledge((0,1), 0)] enters
    [mines_safes] with the knowledge base [[{x} = 1; {x} = 1; {x} = 0]] for
    [x = (1,0)].  The first sentence marks [x] as a mine, the sentence
    [{x} = 0] is emptied and removed, and [x] never enters [safes]. *)
Lemma cleanup_marks_mine_first :
  let x : cell := (1, 0) in
  let st1 := mkAI 2 2 {[(1, 1)]} ∅ {[(1, 1)]}
               [mkSentence {[(0, 0); (0, 1); (1, 0)]} 1] in
  let st2 := mkAI 2 2 {[(0, 0); (1, 1)]} ∅ {[(0, 0); (1, 1)]}
               [mkSentence {[(0, 1); (1, 0)]} 1; mkSentence {[(0, 1); (1, 0)]} 1] in
  let st3 := mkAI 2 2 {[(0, 0); (0, 1); (1, 1)]} {[x]} {[(0, 0); (0, 1); (1, 1)]} [] in
  add_knowledge 3 (init 2 2) (1, 1) 1 = Ok st1
  ∧ add_knowledge 3 st1 (0, 0) 1 = Ok st2
  ∧ knowledge (ingest st2 (0, 1) 0)
    = [mkSentence {[x]} 1; mkSentence {[x]} 1; mkSentence {[x]} 0]
  ∧ mines_safes 3 (ingest st2 (0, 1) 0) = Ok st3
  ∧ x ∉ safes st3.
Proof.
  cbn zeta. split_and!; try (vm_compute; reflexivity).
  cbn. set_solver.
Qed.

(** ** Contradictory counts can keep the derivation loop running *)

(** A pass over sentences none of which is empty or resolves changes
    nothing, so [mines_safes] returns the state it was given. *)
Lemma mines_safes_stable fuel st :
  (∀ s, s ∈ knowledge st →
        cells s ≠ ∅ ∧ len (cells s) ≠ count s ∧ count s ≠ 0) →
  mines_safes (S fuel) st = Ok st.
Proof.
  intros Hst. cbn. destruct (scan st) as [[st1 ch] es] eqn:Hscan.
  destruct (scan_ind (λ _ st' ch' es', st' = st ∧ ch' = false ∧ es' = []) st)
    with (st := st1) (ch := ch) (es := es) as (_ & E1 & E2 & E3); auto.
  - intros i st2 ch2 es2 st3 ch3 es3 Hi _ (-> & -> & ->) Hv.
    inversion Hv as [Hn|s Hs He|s Hs Hne Hm|s Hs Hne Hz|s Hs Hne Hm Hz]; subst;
      auto; apply list_elem_of_lookup_2, Hst in Hs; tauto.
  - subst. cbn. by destruct st.
Qed.

Lemma near_far_facts :
  near ≠ ∅ ∧ far ≠ ∅ ∧ ring ∖ near = far ∧ ring ∖ far = near
  ∧ near ⊆ ring ∧ far ⊆ ring
  ∧ near ⊈ far ∧ far ⊈ near ∧ ring ⊈ near ∧ ring ⊈ far
  ∧ len near = 2 ∧ len far = 5 ∧ len ring = 7.
Proof.
  split_and!; try (apply (bool_decide_unpack _); vm_compute; exact I).
Qed.

Lemma in_cycle_stable s :
  in_cycle s → cells s ≠ ∅ ∧ len (cells s) ≠ count s ∧ count s ≠ 0.
Proof.
  destruct near_far_facts
    as (Hn & Hf & _ & _ & _ & _ & _ & _ & _ & _ & Ln & Lf & Lr).
  intros [[E Hc]|[[E Hc]|[E|E]]]; rewrite ?E; cbn; rewrite ?E, ?Ln, ?Lf, ?Lr;
    split_and!; try done; try mod_lia.
Qed.

(** The sentences a pass derives from a cycling knowledge base are again
    over [near] or [far], with a count that is 1 modulo 3. *)
Lemma in_cycle_inferences st t :
  (∀ s, s ∈ knowledge st → in_cycle s) → t ∈ inferences st → in_cycle t.
Proof.
  destruct near_far_facts
    as (_ & _ & Hrn & Hrf & _ & _ & Hnf & Hfn & Hrn' & Hrf' & _).
  intros Hall Ht.
  apply inferences_cells in Ht as (Hne & _ & a & b & Ha & Hb & Hsub & ->).
  apply Hall in Ha, Hb. destruct a as [Xa na], b as [Xb nb].
  unfold in_cycle in *. cbn [cells count] in *.
  assert (Hself : ∀ X : gset cell, X ∖ X = ∅) by set_solver.
  destruct Ha as [[-> Ca]|[[-> Ca]|[Ea|Ea]]];
    try (injection Ea as -> ->);
    (destruct Hb as [[-> Cb]|[[-> Cb]|[Eb|Eb]]];
     try (injection Eb as -> ->));
    first
      [ exfalso; apply Hne; apply Hself
      | exfalso; exact (Hnf Hsub)
      | exfalso; exact (Hfn Hsub)
      | exfalso; exact (Hrn' Hsub)
      | exfalso; exact (Hrf' Hsub)
      | rewrite Hrn; right; left; split; [reflexivity | mod_lia]
      | rewrite Hrf; left; split; [reflexivity | mod_lia] ].
Qed.

(** In a finite knowledge base the counts of the sentences over [near]
    cannot go up in steps of 3 for ever. *)
Lemma last_near_count (K : list Sentence) :
  mkSentence near 1 ∈ K →
  ∃ n, mkSentence near n ∈ K ∧ mkSentence near (n + 3) ∉ K.
Proof.
  intros H0.
  pose (f := λ k : nat, mkSentence near (1 + 3 * Z.of_nat k)).
  assert (Hchain : ∀ m : nat,
            (∃ n, mkSentence near n ∈ K ∧ mkSentence near (n + 3) ∉ K)
            ∨ (∀ k, (k ≤ m)%nat → f k ∈ K)).
  { induction m as [|m [IH|IH]]; [| by left |].
    - right. intros k Hk. assert (k = 0%nat) as -> by lia. exact H0.
    - destruct (decide (f (S m) ∈ K)) as [Hin|Hout].
      + right. intros k Hk.
        destruct (decide (k = S m)) as [->|]; [done | apply IH; lia].
      + left. exists (1 + 3 * Z.of_nat m). split; [apply (IH m); lia|].
        unfold f in Hout.
        by replace (1 + 3 * Z.of_nat m + 3) with (1 + 3 * Z.of_nat (S m)) by lia. }
  destruct (Hchain (length K)) as [?|Hall]; [done|]. exfalso.
  assert (Hsub : f <$> seq 0 (S (length K)) ⊆+ K).
  { apply NoDup_submseteq.
    - apply NoDup_fmap_2; [|apply NoDup_seq].
      intros k1 k2 E. unfold f in E. injection E. lia.
    - intros x Hx. apply list_elem_of_fmap in Hx as (k & -> & Hk).
      apply elem_of_seq in Hk. apply Hall. lia. }
  apply submseteq_length in Hsub. rewrite length_fmap, length_seq in Hsub. lia.
Qed.

(** A pass over a cycling knowledge base always derives something. *)
Lemma cycling_inferences st : cycling st → inferences st ≠ [].
Proof.
  destruct near_far_facts
    as (Hn & Hf & Hrn & Hrf & Hnr & Hfr & _ & _ & Hrn' & Hrf' & _).
  intros (_ & Hall & H1 & H2 & H5).
  destruct (last_near_count _ H1) as (n & Hin & Hout).
  assert (Hsome : ∃ t, t ∈ inferences st);
    [|intros E; destruct Hsome as [t Ht]; rewrite E in Ht; by apply elem_of_nil in Ht].
  apply list_elem_of_lookup_1 in Hin as [i Hi].
  apply list_elem_of_lookup_1 in H2 as [j2 Hj2].
  apply list_elem_of_lookup_1 in H5 as [j5 Hj5].
  destruct (decide (mkSentence far (2 - n) ∈ knowledge st)) as [Hfar|Hfar].
  - apply list_elem_of_lookup_1 in Hfar as [k Hk].
    exists (mkSentence near (n + 3)).
    pose proof (inferences_complete st k j5
                  (mkSentence far (2 - n)) (mkSentence ring 5)) as Hc.
    cbn [cells count] in Hc. rewrite Hrf in Hc.
    replace (5 - (2 - n)) with (n + 3) in Hc by lia.
    apply Hc; auto.
    intros ->. rewrite Hk in Hj5. apply (inj Some) in Hj5.
    apply (f_equal cells) in Hj5. cbn [cells] in Hj5.
    apply Hrf'. by rewrite <- Hj5.
  - exists (mkSentence far (2 - n)).
    pose proof (inferences_complete st i j2
                  (mkSentence near n) (mkSentence ring 2)) as Hc.
    cbn [cells count] in Hc. rewrite Hrn in Hc.
    apply Hc; auto.
    intros ->. rewrite Hi in Hj2. apply (inj Some) in Hj2.
    apply (f_equal cells) in Hj2. cbn [cells] in Hj2.
    apply Hrn'. by rewrite <- Hj2.
Qed.

(** From a cycling state the derivation loop uses up any fuel. *)
Lemma cycling_diverges fuel st : cycling st → derive_loop fuel st = OutOfFuel.
Proof.
  revert st. induction fuel as [|fuel IH]; intros st Hcyc; [done|].
  pose proof (cycling_inferences st Hcyc) as Hne.
  destruct Hcyc as (Hlen & Hall & H1 & H2 & H5).
  cbn [derive_loop]. rewrite decide_True by done.
  rewrite decide_True by (destruct (inferences st); [done | cbn; lia]).
  assert (Hall' : ∀ s, s ∈ knowledge st ++ inferences st → in_cycle s).
  { intros s Hs. apply elem_of_app in Hs as [Hs|Hs]; [by apply Hall|].
    by apply (in_cycle_inferences st). }
  rewrite mines_safes_stable.
  - cbn [mbind result_bind]. apply IH. split_and!; cbn; auto.
    all: apply elem_of_app; by left.
  - intros s Hs. apply in_cycle_stable, Hall'. exact Hs.
Qed.

(** C5 as stated fails.  On a 3x3 board, [add_knowledge((1,1), 2)] and
    [add_knowledge((0,0), 1)] return; a second report for [(1,1)], now with
    count 5, contradicts the first, and the call never returns: every pass
    of the derivation loop derives sentences over [near] and [far] with
    counts not seen before, and none of them ever resolves. *)
Lemma derivation_loop_diverges :
  let st1 := mkAI 3 3 {[(1, 1)]} ∅ {[(1, 1)]}
               [mkSentence ({[(0, 0)]} ∪ ring) 2] in
  let st2 := mkAI 3 3 {[(0, 0); (1, 1)]} ∅ {[(0, 0); (1, 1)]}
               [mkSentence ring 2; mkSentence near 1; mkSentence far 1] in
  add_knowledge 3 (init 3 3) (1, 1) 2 = Ok st1
  ∧ add_knowledge 3 st1 (0, 0) 1 = Ok st2
  ∧ ∀ fuel, add_knowledge fuel st2 (1, 1) 5 = OutOfFuel.
Proof.
  cbn zeta. split_and!; [vm_compute; reflexivity | vm_compute; reflexivity |].
  intros fuel. unfold add_knowledge.
  set (st3 := mkAI 3 3 {[(0, 0); (1, 1)]} ∅ {[(0, 0); (1, 1)]}
                [mkSentence ring 2; mkSentence near 1; mkSentence far 1;
                 mkSentence ring 5]).
  assert (ingest (mkAI 3 3 {[(0, 0); (1, 1)]} ∅ {[(0, 0); (1, 1)]}
                    [mkSentence ring 2; mkSentence near 1; mkSentence far 1])
                 (1, 1) 5 = st3) as -> by (vm_compute; reflexivity).
  assert (Hcyc : cycling st3).
  { split_and!.
    - reflexivity.
    - intros s Hs. unfold st3 in Hs. cbn [knowledge] in Hs.
      rewrite !elem_of_cons in Hs.
      destruct Hs as [-> | [-> | [-> | [-> | Hs]]]];
        [| | | | by apply elem_of_nil in Hs]; unfold in_cycle; cbn [cells count].
      + right; right; left. reflexivity.
      + left. split; reflexivity.
      + right; left. split; reflexivity.
      + right; right; right. reflexivity.
    - right; left.
    - left.
    - do 3 right. left. }
  destruct fuel as [|fuel]; [reflexivity|].
  rewrite mines_safes_stable.
  - cbn [mbind result_bind]. by apply cycling_diverges.
  - intros s Hs. apply in_cycle_stable. by apply Hcyc.
Qed.

(** ** Truthful inputs end the derivation loop *)

Lemma elem_of_mentioned (K : list Sentence) (x : cell) :
  x ∈ mentioned K ↔ ∃ s, s ∈ K ∧ x ∈ cells s.
Proof.
  unfold mentioned. rewrite elem_of_union_list. split.
  - intros (X & HX & Hx). apply list_elem_of_fmap in HX as (s & -> & Hs). eauto.
  - intros (s & Hs & Hx). exists (cells s). split; [|done].
    by apply list_elem_of_fmap_2.
Qed.

Lemma elem_of_cell_sets (K : list Sentence) (X : gset cell) :
  X ∈ cell_sets K ↔ X ≠ ∅ ∧ ∃ s, s ∈ K ∧ cells s = X.
Proof.
  unfold cell_sets. rewrite elem_of_list_to_set, list_elem_of_filter.
  rewrite list_elem_of_fmap. naive_solver.
Qed.

(** A duplicate-free list of subsets of [U] has at most [2 ^ |U|] entries. *)
Lemma subsets_bound (U : gset cell) :
  ∀ L : list (gset cell),
    NoDup L → (∀ X, X ∈ L → X ⊆ U) → (length L ≤ 2 ^ size U)%nat.
Proof.
  induction U as [|x U Hx IH] using set_ind_L; intros L Hnd Hsub.
  - rewrite size_empty. cbn.
    destruct L as [|X [|Y L]]; cbn; [lia|lia|]. exfalso.
    assert (X = ∅) as -> by (apply leibniz_equiv; specialize (Hsub X); set_solver).
    assert (Y = ∅) as -> by (apply leibniz_equiv; specialize (Hsub Y); set_solver).
    apply NoDup_cons in Hnd as [Hnd _]. apply Hnd. left.
  - rewrite size_union by set_solver. rewrite size_singleton.
    pose proof (filter_app_complement (λ X : gset cell, x ∈ X) L) as Hperm.
    apply Permutation_length in Hperm. rewrite length_app in Hperm.
    assert (H0 : (length (filter (λ X : gset cell, x ∉ X) L) ≤ 2 ^ size U)%nat).
    { apply IH; [by apply NoDup_filter|].
      intros X HX. apply list_elem_of_filter in HX as [HxX HX].
      specialize (Hsub X HX). set_solver. }
    assert (H1 : (length (filter (λ X : gset cell, x ∈ X) L) ≤ 2 ^ size U)%nat).
    { rewrite <- (length_fmap (λ X : gset cell, X ∖ {[x]})). apply IH.
      - apply NoDup_fmap_2_strong; [|by apply NoDup_filter].
        intros X Y HX HY E.
        apply list_elem_of_filter in HX as [HxX _].
        apply list_elem_of_filter in HY as [HxY _].
        apply set_eq. intros y. destruct (decide (y = x)) as [->|]; [tauto|].
        assert (y ∈ X ∖ {[x]} ↔ y ∈ Y ∖ {[x]}) by (by rewrite E). set_solver.
      - intros X HX. apply list_elem_of_fmap in HX as (Y & -> & HY).
        apply list_elem_of_filter in HY as [_ HY].
        specialize (Hsub Y HY). set_solver. }
    change (2 ^ (1 + size U))%nat with (2 * 2 ^ size U)%nat. lia.
Qed.

Lemma cell_sets_bound (K : list Sentence) : (size (cell_sets K) ≤ 2 ^ size (mentioned K))%nat.
Proof.
  unfold size at 1, set_size; cbn. apply subsets_bound; [apply NoDup_elements|].
  intros X HX. apply elem_of_elements, elem_of_cell_sets in HX as (_ & s & Hs & <-).
  intros x Hx. apply elem_of_mentioned. eauto.
Qed.

Lemma mentioned_minus_mines (X : gset cell) (K : list Sentence) (x : cell) :
  x ∈ mentioned (minus_mines X <$> K) → x ∈ mentioned K ∧ x ∉ X.
Proof.
  rewrite !elem_of_mentioned. intros (s & Hs & Hx).
  apply list_elem_of_fmap in Hs as (t & -> & Ht). cbn in Hx.
  split; [exists t|]; set_solver.
Qed.

Lemma mentioned_minus_safes (X : gset cell) (K : list Sentence) (x : cell) :
  x ∈ mentioned (minus_safes X <$> K) → x ∈ mentioned K ∧ x ∉ X.
Proof.
  rewrite !elem_of_mentioned. intros (s & Hs & Hx).
  apply list_elem_of_fmap in Hs as (t & -> & Ht). cbn in Hx.
  split; [exists t|]; set_solver.
Qed.

Lemma mentioned_submseteq (K' K : list Sentence) :
  K' ⊆+ K → mentioned K' ⊆ mentioned K.
Proof.
  intros Hsub x. rewrite !elem_of_mentioned. intros (s & Hs & Hx).
  exists s. split; [by eapply elem_of_submseteq | done].
Qed.

Lemma mines_safes_mentioned fuel st st' :
  mines_safes fuel st = Ok st' →
  mentioned (knowledge st') ⊆ mentioned (knowledge st).
Proof.
  intros Hrun.
  apply (mines_safes_preserves
    (λ st', mentioned (knowledge st') ⊆ mentioned (knowledge st)))
    with (fuel := fuel) (st := st); auto.
  - intros st1 s H _ _ _. rewrite set_fold_mark_mine; cbn.
    intros x Hx. apply mentioned_minus_mines in Hx as [Hx _]. by apply H.
  - intros st1 s H _ _ _. rewrite set_fold_mark_safe; cbn.
    intros x Hx. apply mentioned_minus_safes in Hx as [Hx _]. by apply H.
  - intros st1 K H HK. cbn. etrans; [by apply mentioned_submseteq | done].
Qed.

(** A pass that sets the flag has marked every cell of some non-empty
    sentence, so fewer cells are mentioned after it. *)
Lemma scan_mentioned st0 st ch es :
  scan st0 = (st, ch, es) →
  mentioned (knowledge st) ⊆ mentioned (knowledge st0)
  ∧ (ch = true →
     ∃ x, x ∈ mentioned (knowledge st0) ∧ x ∉ mentioned (knowledge st)).
Proof.
  intros Hscan.
  destruct (scan_ind (λ _ st ch _,
      mentioned (knowledge st) ⊆ mentioned (knowledge st0)
      ∧ (ch = true →
         ∃ x, x ∈ mentioned (knowledge st0) ∧ x ∉ mentioned (knowledge st))) st0)
    with (st := st) (ch := ch) (es := es) as (_ & H); auto.
  { split; [done|]. intros; done. }
  clear Hscan st ch es. intros i st ch es st' ch' es' _ _ [Hsub Hlost] Hv.
  inversion Hv as [Hn|s Hs He|s Hs Hne Hm|s Hs Hne Hz|s Hs Hne Hm Hz]; subst;
    auto.
  - rewrite set_fold_mark_mine; cbn. split.
    + intros x Hx. apply mentioned_minus_mines in Hx as [Hx _]. by apply Hsub.
    + intros _. apply set_choose_L in Hne as [x Hx]. exists x. split.
      * apply Hsub, elem_of_mentioned. exists s.
        split; [by eapply list_elem_of_lookup_2 | done].
      * intros Hin. apply mentioned_minus_mines in Hin as [_ Hin]. done.
  - rewrite set_fold_mark_safe; cbn. split.
    + intros x Hx. apply mentioned_minus_safes in Hx as [Hx _]. by apply Hsub.
    + intros _. apply set_choose_L in Hne as [x Hx]. exists x. split.
      * apply Hsub, elem_of_mentioned. exists s.
        split; [by eapply list_elem_of_lookup_2 | done].
      * intros Hin. apply mentioned_minus_safes in Hin as [_ Hin]. done.
Qed.

(** Removing empty sentences changes neither measure. *)
Lemma mentioned_remove_empties (K es K' : list Sentence) :
  K ≡ₚ es ++ K' → Forall (λ s, cells s = ∅) es →
  mentioned K' = mentioned K ∧ cell_sets K' = cell_sets K.
Proof.
  intros Hperm Hemp. rewrite Forall_forall in Hemp. split.
  - apply set_eq. intros x. rewrite !elem_of_mentioned.
    split; intros (s & Hs & Hx); exists s; (split; [|done]).
    + rewrite Hperm. apply elem_of_app. by right.
    + rewrite Hperm in Hs. apply elem_of_app in Hs as [Hs|Hs]; [|done].
      rewrite (Hemp s Hs) in Hx. set_solver.
  - apply set_eq. intros X. rewrite !elem_of_cell_sets.
    split; intros (HX & s & Hs & <-); (split; [done|]); exists s; (split; [|done]).
    + rewrite Hperm. apply elem_of_app. by right.
    + rewrite Hperm in Hs. apply elem_of_app in Hs as [Hs|Hs]; [|done].
      by rewrite (Hemp s Hs) in HX.
Qed.

Lemma measure_drop_sets (u d d1 : nat) :
  (d < d1)%nat → (d1 ≤ 2 ^ u)%nat →
  (2 ^ S u + u - d1 < 2 ^ S u + u - d)%nat.
Proof. intros. cbn [Nat.pow]. lia. Qed.

Lemma measure_drop_cells (u u1 d d1 : nat) :
  (u1 < u)%nat → (d ≤ 2 ^ u)%nat →
  (2 ^ S u1 + u1 - d1 < 2 ^ S u + u - d)%nat.
Proof.
  intros Hu Hd. pose proof (Nat.pow_le_mono_r 2 (S u1) u). cbn [Nat.pow] in *.
  lia.
Qed.

(** Under a mine layout a sentence is determined by its cells, so a pass
    that derives something adds a cell set not held before, over cells
    already mentioned. *)
Lemma inferences_measure (M : gset cell) st :
  sound M st → inferences st ≠ [] →
  mentioned (knowledge st ++ inferences st) = mentioned (knowledge st)
  ∧ cell_sets (knowledge st) ⊂ cell_sets (knowledge st ++ inferences st).
Proof.
  intros Hsd Hne. split; [|split].
  - apply set_eq. intros x. rewrite !elem_of_mentioned. split.
    + intros (s & Hs & Hx). apply elem_of_app in Hs as [Hs|Hs]; [eauto|].
      apply inferences_cells in Hs as (_ & _ & a & b & _ & Hb & _ & ->).
      exists b. split; [done|]. cbn in Hx. set_solver.
    + intros (s & Hs & Hx). exists s. split; [|done].
      apply elem_of_app. by left.
  - intros X. rewrite !elem_of_cell_sets. intros (HX & s & Hs & <-).
    split; [done|]. exists s. split; [|done]. apply elem_of_app. by left.
  - destruct (inferences st) as [|t N] eqn:E; [done|].
    assert (Ht : t ∈ inferences st) by (rewrite E; left).
    pose proof (sound_inferences M st Hsd) as (_ & _ & Hk'). cbn in Hk'.
    destruct Hsd as (_ & _ & Hk).
    pose proof (inferences_cells st t Ht) as (Hne' & Hnew & _).
    intros Hsub. specialize (Hsub (cells t)).
    rewrite !elem_of_cell_sets in Hsub.
    destruct Hsub as (_ & s & Hs & Hc).
    { split; [done|]. exists t. split; [|done]. apply elem_of_app. right. left. }
    apply Hnew. replace t with s; [done|].
    destruct s as [Xs ns], t as [Xt nt]. cbn in Hc. subst Xs. f_equal.
    pose proof (Hk _ Hs) as H1. pose proof (Hk' (mkSentence Xt nt)) as H2.
    cbn in H1, H2. rewrite H1, H2; [done|].
    apply elem_of_app. right. rewrite E. left.
Qed.

(** One iteration of the derivation loop lowers the measure. *)
Lemma derive_progress (M : gset cell) fuel st st1 :
  sound M st → inferences st ≠ [] →
  mines_safes fuel (set_knowledge (knowledge st ++ inferences st) st) = Ok st1 →
  (loop_measure (knowledge st1) < loop_measure (knowledge st))%nat.
Proof.
  intros Hsd Hne Hrun.
  destruct (inferences_measure M st Hsd Hne) as [Hu Hd].
  apply subset_size in Hd.
  pose proof (cell_sets_bound (knowledge st)) as Hb.
  destruct fuel as [|fuel]; [done|]. cbn [mines_safes] in Hrun.
  destruct (scan _) as [[st_s ch] es] eqn:Hscan.
  destruct (scan_remove _ _ _ _ Hscan) as (K' & HK' & Hperm & _).
  rewrite HK' in Hrun.
  destruct (scan_facts _ _ _ _ Hscan) as (_ & _ & Hemp & _ & _ & Hfix).
  destruct (mentioned_remove_empties _ _ _ Hperm Hemp) as [Hu' Hd'].
  destruct (scan_mentioned _ _ _ _ Hscan) as [Hsub Hlost].
  cbn [knowledge set_knowledge] in *. unfold loop_measure. destruct ch.
  - apply mines_safes_mentioned in Hrun. cbn [knowledge set_knowledge] in Hrun.
    apply measure_drop_cells; [|done].
    destruct (Hlost eq_refl) as (x & Hx & Hnx).
    rewrite <- Hu. apply subset_size. split.
    + etrans; [exact Hrun|]. rewrite Hu'. exact Hsub.
    + intros Hback. apply Hnx. rewrite <- Hu'. apply Hrun, Hback, Hx.
  - injection Hrun as <-. cbn [knowledge set_knowledge].
    destruct (Hfix eq_refl) as (-> & _ & _). cbn [knowledge set_knowledge] in *.
    rewrite Hu', Hd', Hu. apply measure_drop_sets; [done|].
    rewrite <- Hu. apply cell_sets_bound.
Qed.

Lemma derive_loop_fuel_mono fuel fuel' st st' :
  derive_loop fuel st = Ok st' → (fuel ≤ fuel')%nat →
  derive_loop fuel' st = Ok st'.
Proof.
  revert fuel' st. induction fuel as [|fuel IH]; intros fuel' st H Hle; [done|].
  destruct fuel' as [|fuel']; [lia|]. cbn [derive_loop] in *.
  destruct (decide _); [|done]. destruct (decide _); [|done].
  destruct (mines_safes (S fuel) _) as [st1| |] eqn:Hms; try done.
  rewrite (mines_safes_fuel_mono _ (S fuel') _ _ Hms) by lia.
  cbn [mbind result_bind] in *. apply IH; [done | lia].
Qed.

(** From a state that agrees with a mine layout the derivation loop
    returns. *)
Lemma derive_loop_terminates (M : gset cell) st :
  sound M st → ∃ fuel st', derive_loop fuel st = Ok st'.
Proof.
  remember (loop_measure (knowledge st)) as n eqn:Hn.
  revert st Hn. induction n as [n IH] using lt_wf_ind. intros st -> Hsd.
  destruct (decide (len (moves_made st) = len (safes st))) as [Hg|Hg];
    [|exists 1%nat, st; cbn; by rewrite decide_False].
  destruct (decide (length (inferences st) ≠ 0%nat)) as [Hne|He];
    [|exists 1%nat, st; cbn; rewrite decide_True by done; by rewrite decide_False].
  set (st_a := set_knowledge (knowledge st ++ inferences st) st).
  destruct (mines_safes_terminates (S (nonempty_count (knowledge st_a))) st_a)
    as [st1 Hms]; [lia|].
  assert (Hne' : inferences st ≠ []) by (intros E; by rewrite E in Hne).
  pose proof (derive_progress M _ st st1 Hsd Hne' Hms) as Hlt.
  assert (Hsd1 : sound M st1).
  { eapply sound_mines_safes; [|exact Hms]. by apply sound_inferences. }
  destruct (IH _ Hlt st1 eq_refl Hsd1) as (fuel1 & st' & Hloop).
  set (fuel2 := S (nonempty_count (knowledge st_a))) in *.
  exists (S (Nat.max fuel1 fuel2)), st'. cbn [derive_loop].
  rewrite decide_True by done. rewrite decide_True by done.
  fold st_a. rewrite (mines_safes_fuel_mono _ _ _ _ Hms) by lia.
  cbn [mbind result_bind].
  apply (derive_loop_fuel_mono fuel1); [done | lia].
Qed.

(** C5 (as the code has it). [mines_safes] returns from every state,
    within one pass more than there are non-empty sentences.  The
    derivation loop of [add_knowledge] returns whenever the engine state
    comes from truthful operations and the new count is the one the board
    reports for a cell that is not a mine.  (Contradictory counts can keep
    the loop running for ever.) *)
Theorem loops_terminate :
  (∀ st, ∃ st', mines_safes (S (nonempty_count (knowledge st))) st = Ok st')
  ∧ (∀ (M : gset cell) st c,
       truthful M st → c ∉ M →
       ∃ fuel st',
         add_knowledge fuel st c (nearby_mines (height st) (width st) M c)
         = Ok st').
Proof.
  split.
  - intros st. apply mines_safes_terminates. lia.
  - intros M st c Htr Hc. apply truthful_sound in Htr.
    pose proof (sound_ingest M st c Htr Hc) as Hsd.
    set (st0 := ingest st c _) in *.
    destruct (mines_safes_terminates (S (nonempty_count (knowledge st0))) st0)
      as [st1 Hms]; [lia|].
    assert (Hsd1 : sound M st1) by (by eapply sound_mines_safes).
    destruct (derive_loop_terminates M st1 Hsd1) as (fuel1 & st' & Hloop).
    set (fuel2 := S (nonempty_count (knowledge st0))) in *.
    exists (Nat.max fuel1 fuel2), st'. unfold add_knowledge. fold st0.
    rewrite (mines_safes_fuel_mono _ _ _ _ Hms) by lia.
    cbn [mbind result_bind].
    apply (derive_loop_fuel_mono fuel1); [done | lia].
Qed.

(** C5, witness: a 2x2 board with its mine at [(0,0)]; after [(1,1)] was
    revealed, revealing [(0,1)] returns. *)
Lemma loops_terminate_witness :
  ∃ fuel st',
    add_knowledge fuel
      (mkAI 2 2 {[(1, 1)]} ∅ {[(1, 1)]} [mkSentence {[(0, 0); (0, 1); (1, 0)]} 1])
      (0, 1) 1 = Ok st'.
Proof.
  destruct loops_terminate as [_ H].
  assert (E : nearby_mines 2 2 {[(0, 0)]} (0, 1) = 1) by (vm_compute; reflexivity).
  pose proof (H {[(0, 0)]}
           (mkAI 2 2 {[(1, 1)]} ∅ {[(1, 1)]}
              [mkSentence {[(0, 0); (0, 1); (1, 0)]} 1]) (0, 1)) as H'.
  cbn [height width] in H'. rewrite E in H'. apply H'.
  - apply (truthful_add_knowledge _ 2%nat (1, 1) (init 2 2)).
    + constructor.
    + set_solver.
    + vm_compute. reflexivity.
  - set_solver.
Defined.

(** * Further properties of the code *)

(** ** Neighbours and the counts of the board *)

Lemma elem_of_box (li lj : list Z) (p : cell) :
  p ∈ (i ← li; j ← lj; [(i, j)]) ↔ p.1 ∈ li ∧ p.2 ∈ lj.
Proof.
  rewrite list_elem_of_bind. split.
  - intros (i & Hp & Hi). apply list_elem_of_bind in Hp as (j & Hp & Hj).
    apply list_elem_of_singleton in Hp as ->. done.
  - destruct p as [i j]. cbn. intros [Hi Hj]. exists i. split; [|done].
    apply list_elem_of_bind. exists j. split; [|done].
    by apply list_elem_of_singleton.
Qed.

Lemma length_box (li lj : list Z) :
  length (i ← li; j ← lj; [(i, j)]) = (length li * length lj)%nat.
Proof.
  induction li as [|i li IH]; [done|].
  change ((i :: li) ≫= ?g) with (g i ++ (li ≫= g)).
  rewrite length_app, IH. cbn [Nat.mul length]. f_equal.
  clear IH. induction lj as [|j lj IH]; [done|].
  change ((j :: lj) ≫= ?g) with (g j ++ (lj ≫= g)).
  rewrite length_app, IH. done.
Qed.

(** The loop body of [get_neighbours] collects the cells of the list that
    are in the grid and differ from [c]. *)
Lemma elem_of_foldl_neighbours (st : MinesweeperAI) (c : cell) (l : list cell) (X : gset cell)
    (p : cell) :
  p ∈ foldl (λ (acc : gset cell) (q : cell),
        if decide (q = c) then acc
        else if decide (0 ≤ q.1 < height st ∧ 0 ≤ q.2 < width st)
             then {[q]} ∪ acc else acc) X l
  ↔ p ∈ X ∨ (p ∈ l ∧ p ≠ c ∧ in_grid st p).
Proof.
  revert X. induction l as [|q l IH]; intros X; cbn [foldl].
  - rewrite elem_of_nil. tauto.
  - rewrite IH, elem_of_cons. unfold in_grid.
    destruct (decide (q = c)) as [->|Hq].
    + split; [tauto|]. intros [?|([->|?] & ? & ?)]; tauto.
    + destruct (decide _) as [Hg|Hg].
      * rewrite elem_of_union, elem_of_singleton. split.
        -- intros [[->|?]|?]; tauto.
        -- intros [?|([->|?] & ? & ?)]; tauto.
      * split; [tauto|]. intros [?|([->|?] & ? & ?)]; tauto.
Qed.

Lemma get_neighbours_box st c :
  get_neighbours st c
  = foldl (λ (acc : gset cell) (q : cell),
        if decide (q = c) then acc
        else if decide (0 ≤ q.1 < height st ∧ 0 ≤ q.2 < width st)
             then {[q]} ∪ acc else acc) ∅
      (i ← zrange (c.1 - 1) (c.1 + 2); j ← zrange (c.2 - 1) (c.2 + 2); [(i, j)]).
Proof. unfold get_neighbours. by rewrite <- nested_foldl. Qed.

Lemma elem_of_get_neighbours st c p :
  p ∈ get_neighbours st c
  ↔ in_grid st p ∧ p ≠ c
    ∧ c.1 - 1 ≤ p.1 ≤ c.1 + 1 ∧ c.2 - 1 ≤ p.2 ≤ c.2 + 1.
Proof.
  rewrite get_neighbours_box, elem_of_foldl_neighbours, elem_of_box.
  rewrite !elem_of_zrange. split.
  - intros [H|H]; [by apply not_elem_of_empty in H|]. split_and!; try tauto; lia.
  - intros (? & ? & ? & ?). right. split_and!; try done; lia.
Qed.

Lemma get_neighbours_size st c : len (get_neighbours st c) ≤ 8.
Proof.
  set (box := i ← zrange (c.1 - 1) (c.1 + 2);
              j ← zrange (c.2 - 1) (c.2 + 2); [(i, j)]).
  assert (Hsub : {[c]} ∪ get_neighbours st c ⊆ list_to_set box).
  { intros p. rewrite elem_of_union, elem_of_singleton, elem_of_list_to_set.
    unfold box. rewrite elem_of_box, !elem_of_zrange, elem_of_get_neighbours.
    intros [->|(_ & _ & ? & ?)]; lia. }
  apply subseteq_size in Hsub.
  rewrite size_union in Hsub
    by (intros p; rewrite elem_of_singleton, elem_of_get_neighbours; naive_solver).
  rewrite size_singleton in Hsub.
  pose proof (size_list_to_set (C := gset cell) box) as Hbox.
  assert (Hlen : length box = 9%nat).
  { unfold box. rewrite length_box. unfold zrange. rewrite !length_seqZ. lia. }
  assert (size (list_to_set box : gset cell) ≤ 9)%nat.
  { rewrite Hbox; [lia|]. unfold box. apply NoDup_box; apply NoDup_seqZ. }
  unfold len. lia.
Qed.

(** X1. [get_neighbours] returns exactly the cells of the grid, other than
    the cell itself, whose row and column are within one of the cell's;
    the cell itself need not be in the grid. *)
Theorem get_neighbours_spec (st : MinesweeperAI) (c p : cell) :
  p ∈ get_neighbours st c
  ↔ in_grid st p ∧ p ≠ c
    ∧ c.1 - 1 ≤ p.1 ≤ c.1 + 1 ∧ c.2 - 1 ≤ p.2 ≤ c.2 + 1.
Proof. apply elem_of_get_neighbours. Qed.

(** X2. Being a neighbour is symmetric between cells of the grid: if [p]
    is among the neighbours of a grid cell [c], then [c] is among the
    neighbours of [p]. *)
Theorem get_neighbours_symmetric (st : MinesweeperAI) (c p : cell) :
  in_grid st c → p ∈ get_neighbours st c → c ∈ get_neighbours st p.
Proof.
  intros Hc. rewrite !elem_of_get_neighbours. intros (_ & Hne & H1 & H2).
  split_and!; auto; lia.
Qed.

(** X2, witness: the corner and the centre of a 3x3 board. *)
Lemma get_neighbours_symmetric_witness :
  (1, 1) ∈ get_neighbours (init 3 3) (0, 0).
Proof.
  apply (get_neighbours_symmetric (init 3 3) (1, 1) (0, 0)).
  - unfold in_grid. cbn. lia.
  - apply (bool_decide_unpack _). vm_compute. exact I.
Defined.

(** X3. A cell has at most eight neighbours, whatever the size of the
    grid and wherever the cell lies. *)
Theorem get_neighbours_at_most_8 (st : MinesweeperAI) (c : cell) :
  len (get_neighbours st c) ≤ 8.
Proof. apply get_neighbours_size. Qed.

(** X4. The count [Minesweeper.nearby_mines] reports for a cell is the
    number of mines among the cells [MinesweeperAI.get_neighbours] returns
    for it on a grid of the same size; it lies between 0 and 8. *)
Theorem nearby_mines_counts_neighbours (st : MinesweeperAI) (M : gset cell)
    (c : cell) :
  nearby_mines (height st) (width st) M c = len (get_neighbours st c ∩ M)
  ∧ 0 ≤ nearby_mines (height st) (width st) M c ≤ 8.
Proof.
  rewrite nearby_mines_neighbours. split; [done|].
  assert (Hle : len (get_neighbours st c ∩ M) ≤ len (get_neighbours st c)).
  { unfold len. apply inj_le, subseteq_size. set_solver. }
  pose proof (get_neighbours_size st c).
  pose proof (len_nonneg (get_neighbours st c ∩ M)). lia.
Qed.

(** ** Sentences *)

Lemma Sentence_mark_mine_comm c1 c2 s :
  Sentence_mark_mine c1 (Sentence_mark_mine c2 s)
  = Sentence_mark_mine c2 (Sentence_mark_mine c1 s).
Proof.
  destruct s as [X n]. unfold Sentence_mark_mine; cbn.
  destruct (decide (c1 ∈ X)) as [H1|H1], (decide (c2 ∈ X)) as [H2|H2]; cbn;
    repeat case_decide; f_equal; try set_solver; lia.
Qed.

Lemma Sentence_mark_safe_comm c1 c2 s :
  Sentence_mark_safe c1 (Sentence_mark_safe c2 s)
  = Sentence_mark_safe c2 (Sentence_mark_safe c1 s).
Proof.
  destruct s as [X n]. unfold Sentence_mark_safe; cbn.
  destruct (decide (c1 ∈ X)) as [H1|H1], (decide (c2 ∈ X)) as [H2|H2]; cbn;
    repeat case_decide; f_equal; set_solver.
Qed.

Lemma Sentence_mark_mine_safe_comm c1 c2 s :
  c1 ≠ c2 →
  Sentence_mark_mine c1 (Sentence_mark_safe c2 s)
  = Sentence_mark_safe c2 (Sentence_mark_mine c1 s).
Proof.
  intros Hne. destruct s as [X n]. unfold Sentence_mark_mine, Sentence_mark_safe; cbn.
  destruct (decide (c1 ∈ X)) as [H1|H1], (decide (c2 ∈ X)) as [H2|H2]; cbn;
    repeat case_decide; f_equal; try set_solver; lia.
Qed.

(** X5. The order in which cells are marked does not matter: two calls of
    [MinesweeperAI.mark_mine] commute, two calls of [mark_safe] commute,
    and [mark_mine] commutes with [mark_safe] for two different cells.
    (For one and the same cell the last two do not commute: the sentence
    count is lowered only when [mark_mine] comes first.) *)
Theorem marks_commute (c1 c2 : cell) (st : MinesweeperAI) :
  mark_mine c1 (mark_mine c2 st) = mark_mine c2 (mark_mine c1 st)
  ∧ mark_safe c1 (mark_safe c2 st) = mark_safe c2 (mark_safe c1 st)
  ∧ (c1 ≠ c2 →
     mark_mine c1 (mark_safe c2 st) = mark_safe c2 (mark_mine c1 st)).
Proof.
  split_and!; [| |intros Hne]; unfold mark_mine, mark_safe; cbn; f_equal;
    try set_solver; rewrite <- !list_fmap_compose; apply list_fmap_ext;
    intros _ s _; cbn.
  - apply Sentence_mark_mine_comm.
  - apply Sentence_mark_safe_comm.
  - by apply Sentence_mark_mine_safe_comm.
Qed.

(** X5, witness: a mine at [(0,0)] and a safe cell at [(0,1)], in either
    order. *)
Lemma marks_commute_witness :
  let st := mkAI 2 2 ∅ ∅ ∅ [mkSentence {[(0, 0); (0, 1); (1, 0)]} 1] in
  mark_mine (0, 0) (mark_safe (0, 1) st) = mark_safe (0, 1) (mark_mine (0, 0) st).
Proof.
  cbn zeta.
  destruct (marks_commute (0, 0) (0, 1)
              (mkAI 2 2 ∅ ∅ ∅ [mkSentence {[(0, 0); (0, 1); (1, 0)]} 1]))
    as (_ & _ & H).
  apply H. intros [=].
Defined.

(** X6. What the two sentence updates keep: [Sentence.mark_mine] leaves
    [len(cells) - count], the number of cells not counted as mines,
    unchanged, and [Sentence.mark_safe] leaves [count] unchanged; either
    removes the cell and nothing else. *)
Theorem sentence_mark_accounting (c : cell) (s : Sentence) :
  len (cells (Sentence_mark_mine c s)) - count (Sentence_mark_mine c s)
  = len (cells s) - count s
  ∧ count (Sentence_mark_safe c s) = count s
  ∧ cells (Sentence_mark_mine c s) = cells s ∖ {[c]}
  ∧ cells (Sentence_mark_safe c s) = cells s ∖ {[c]}.
Proof.
  destruct s as [X n]. unfold Sentence_mark_mine, Sentence_mark_safe; cbn.
  destruct (decide (c ∈ X)) as [Hc|Hc]; cbn; split_and!; try done;
    try set_solver.
  unfold len. rewrite size_difference by set_solver. rewrite size_singleton.
  assert (0 < size X)%nat; [|lia].
  assert (size X ≠ 0)%nat; [|lia].
  intros H0. apply size_empty_iff in H0. set_solver.
Qed.

(** X7. [known_mines] and [known_safes] never report a common cell, and
    what they report holds in every mine layout that satisfies the
    sentence: the cells of [known_mines] are all mines and no cell of
    [known_safes] is. *)
Theorem known_cells_sound (s : Sentence) :
  known_mines s ∩ known_safes s = ∅
  ∧ ∀ M : gset cell,
      count s = len (cells s ∩ M) →
      known_mines s ⊆ M ∧ known_safes s ## M.
Proof.
  unfold known_mines, known_safes. split.
  - destruct (decide (len (cells s) = count s)) as [H1|H1];
      destruct (decide (count s = 0)) as [H2|H2]; try set_solver.
    rewrite H2 in H1. apply len_zero_iff in H1. set_solver.
  - intros M HM. split.
    + destruct (decide _) as [H1|H1]; [|set_solver].
      rewrite HM in H1.
      assert (cells s ∩ M = cells s) as <-; [|set_solver].
      apply set_subseteq_size_eq; [set_solver|]. unfold len in H1. lia.
    + destruct (decide _) as [H2|H2]; [|set_solver].
      rewrite HM in H2. apply len_zero_iff in H2. set_solver.
Qed.

(** X7, witness: [{(0,0), (0,1)} = 2] in a layout with both cells mined. *)
Lemma known_cells_sound_witness :
  known_mines (mkSentence {[(0, 0); (0, 1)]} 2) ⊆ {[(0, 0); (0, 1); (5, 5)]}.
Proof.
  destruct (known_cells_sound (mkSentence {[(0, 0); (0, 1)]} 2)) as [_ H].
  apply (H {[(0, 0); (0, 1); (5, 5)]}). vm_compute. reflexivity.
Defined.

(** ** Propagation *)

(** X8. When [mines_safes] returns, nothing is left for it to do: no held
    sentence is empty and none reports a known mine or a known safe cell;
    calling [mines_safes] again, with any fuel, returns the same state. *)
Theorem mines_safes_settles (fuel : nat) (st st' : MinesweeperAI) :
  mines_safes fuel st = Ok st' →
  (∀ s, s ∈ knowledge st' →
        cells s ≠ ∅ ∧ known_mines s = ∅ ∧ known_safes s = ∅)
  ∧ ∀ fuel', mines_safes (S fuel') st' = Ok st'.
Proof.
  intros Hrun. pose proof (mines_safes_fixed _ _ _ Hrun) as Hfix. split.
  - intros s Hs. destruct (Hfix s Hs) as (Hne & Hm & Hz).
    unfold known_mines, known_safes.
    rewrite decide_False by done. by rewrite decide_False by done.
  - intros fuel'. by apply mines_safes_stable.
Qed.

(** X8, witness: the knowledge base [[{(0,0)} = 1; {(0,0), (0,1)} = 1]]
    settles with both sentences resolved and removed. *)
Lemma mines_safes_settles_witness :
  mines_safes 1 (mkAI 2 2 ∅ {[(0, 0)]} {[(0, 1)]} [])
  = Ok (mkAI 2 2 ∅ {[(0, 0)]} {[(0, 1)]} []).
Proof.
  apply (mines_safes_settles 3
           (mkAI 2 2 ∅ ∅ ∅
              [mkSentence {[(0, 0)]} 1; mkSentence {[(0, 0); (0, 1)]} 1])).
  vm_compute. reflexivity.
Defined.

(** X9. [mines_safes] never raises (the sentences it removes are always
    in the list), and a call that returns has left the grid size and
    [moves_made] unchanged, has only added to [mines] and [safes], and has
    not made the knowledge base longer. *)
Theorem mines_safes_frame (fuel : nat) (st : MinesweeperAI) :
  mines_safes fuel st ≠ ValueError
  ∧ ∀ st', mines_safes fuel st = Ok st' →
      height st' = height st ∧ width st' = width st
      ∧ moves_made st' = moves_made st
      ∧ mines st ⊆ mines st' ∧ safes st ⊆ safes st'
      ∧ (length (knowledge st') ≤ length (knowledge st))%nat.
Proof.
  split; [apply mines_safes_no_error|]. intros st' Hrun.
  pose proof (mines_safes_grows _ _ _ Hrun) as (? & ? & ? & ? & ?).
  pose proof (mines_safes_length _ _ _ Hrun). done.
Qed.

(** X9, witness: the run of X8. *)
Lemma mines_safes_frame_witness :
  let st' := mkAI 2 2 ∅ {[(0, 0)]} {[(0, 1)]} [] in
  (length (knowledge st') ≤ 2)%nat.
Proof.
  cbn zeta.
  destruct (mines_safes_frame 3
              (mkAI 2 2 ∅ ∅ ∅
                 [mkSentence {[(0, 0)]} 1; mkSentence {[(0, 0); (0, 1)]} 1]))
    as [_ H].
  destruct (H (mkAI 2 2 ∅ {[(0, 0)]} {[(0, 1)]} [])) as (_ & _ & _ & _ & _ & Hlen).
  - vm_compute. reflexivity.
  - exact Hlen.
Defined.

Lemma mines_safes_provenance_inv fuel st st' :
  mines_safes fuel st = Ok st' →
  mentioned (knowledge st') ⊆ mentioned (knowledge st)
  ∧ mines st' ∪ safes st' ⊆ mines st ∪ safes st ∪ mentioned (knowledge st)
  ∧ ∀ x, x ∈ mines st' ∪ safes st' → x ∉ mines st ∪ safes st →
         x ∉ mentioned (knowledge st').
Proof.
  intros Hrun.
  apply (mines_safes_preserves (λ st',
    mentioned (knowledge st') ⊆ mentioned (knowledge st)
    ∧ mines st' ∪ safes st' ⊆ mines st ∪ safes st ∪ mentioned (knowledge st)
    ∧ ∀ x, x ∈ mines st' ∪ safes st' → x ∉ mines st ∪ safes st →
           x ∉ mentioned (knowledge st')))
    with (fuel := fuel) (st := st); auto.
  - intros st1 s (Hsub & Hknown & Hgone) Hs _ _.
    rewrite set_fold_mark_mine; cbn. split_and!.
    + intros x Hx. apply mentioned_minus_mines in Hx as [Hx _]. by apply Hsub.
    + intros x Hx. apply elem_of_union in Hx as [Hx|Hx]; [|set_solver].
      apply elem_of_union in Hx as [Hx|Hx]; [|set_solver].
      apply elem_of_union. right. apply Hsub, elem_of_mentioned. eauto.
    + intros x Hx Hnew Hin. apply mentioned_minus_mines in Hin as [Hin Hnx].
      apply (Hgone x); [set_solver|done|done].
  - intros st1 s (Hsub & Hknown & Hgone) Hs _ _.
    rewrite set_fold_mark_safe; cbn. split_and!.
    + intros x Hx. apply mentioned_minus_safes in Hx as [Hx _]. by apply Hsub.
    + intros x Hx. apply elem_of_union in Hx as [Hx|Hx]; [set_solver|].
      apply elem_of_union in Hx as [Hx|Hx]; [|set_solver].
      apply elem_of_union. right. apply Hsub, elem_of_mentioned. eauto.
    + intros x Hx Hnew Hin. apply mentioned_minus_safes in Hin as [Hin Hnx].
      apply (Hgone x); [set_solver|done|done].
  - intros st1 K (Hsub & Hknown & Hgone) HK. cbn. split_and!; [|done|].
    + etrans; [by apply mentioned_submseteq | done].
    + intros x Hx Hnew Hin. apply (Hgone x Hx Hnew).
      by apply (mentioned_submseteq K (knowledge st1)).
  - split_and!; [done|set_solver|]. intros x Hx Hnew. done.
Qed.

(** X10. [mines_safes] learns only from the knowledge base: a cell that is
    in [mines] or [safes] after the call and was not before is a cell some
    held sentence mentioned before the call, and no held sentence mentions
    it afterwards; the call never adds a cell to a sentence. *)
Theorem mines_safes_provenance (fuel : nat) (st st' : MinesweeperAI) :
  mines_safes fuel st = Ok st' →
  mentioned (knowledge st') ⊆ mentioned (knowledge st)
  ∧ ∀ x, x ∈ mines st' ∪ safes st' → x ∉ mines st ∪ safes st →
         x ∈ mentioned (knowledge st) ∧ x ∉ mentioned (knowledge st').
Proof.
  intros Hrun.
  destruct (mines_safes_provenance_inv _ _ _ Hrun) as (Hsub & Hknown & Hgone).
  split; [done|]. intros x Hx Hnew. split; [|by apply Hgone].
  specialize (Hknown x Hx). set_solver.
Qed.

(** X10, witness: in the run of X8 the cell [(0,1)] becomes safe. *)
Lemma mines_safes_provenance_witness :
  (0, 1) ∈ mentioned [mkSentence {[(0, 0)]} 1; mkSentence {[(0, 0); (0, 1)]} 1]
  ∧ (0, 1) ∉ mentioned [].
Proof.
  destruct (mines_safes_provenance 3
              (mkAI 2 2 ∅ ∅ ∅
                 [mkSentence {[(0, 0)]} 1; mkSentence {[(0, 0); (0, 1)]} 1])
              (mkAI 2 2 ∅ {[(0, 0)]} {[(0, 1)]} [])) as [_ H].
  - vm_compute. reflexivity.
  - apply (H (0, 1)); cbn; set_solver.
Defined.

(** ** Derivation *)

(** X11. The subset rule is sound: in every mine layout in which each held
    sentence counts the mines among its cells, each sentence a derivation
    pass returns counts the mines among its cells too. *)
Theorem inferences_sound (M : gset cell) (st : MinesweeperAI) :
  (∀ s, s ∈ knowledge st → count s = len (cells s ∩ M)) →
  ∀ t, t ∈ inferences st → count t = len (cells t ∩ M).
Proof.
  intros Hk t Ht.
  apply inferences_cells in Ht as (_ & _ & a & b & Ha & Hb & Hsub & ->). cbn.
  rewrite (Hk a Ha), (Hk b Hb).
  rewrite (len_split (cells b) (cells a ∩ M) M) by set_solver.
  assert (cells b ∩ (cells a ∩ M) = cells a ∩ M) as -> by set_solver.
  assert ((cells b ∖ (cells a ∩ M)) ∩ M = (cells b ∖ cells a) ∩ M) as ->.
  { apply set_eq. intros x. set_solver. }
  lia.
Qed.

(** X11, witness: [{(0,0)} = 1] and [{(0,0), (0,1)} = 1] with the mine at
    [(0,0)] give [{(0,1)} = 0]. *)
Lemma inferences_sound_witness :
  count (mkSentence {[(0, 1)]} 0) = len (cells (mkSentence {[(0, 1)]} 0) ∩ {[(0, 0)]}).
Proof.
  apply (inferences_sound {[(0, 0)]}
           (mkAI 2 2 ∅ ∅ ∅
              [mkSentence {[(0, 0)]} 1; mkSentence {[(0, 0); (0, 1)]} 1])).
  - intros s Hs. cbn in Hs. rewrite !elem_of_cons in Hs.
    destruct Hs as [-> | [-> | Hs]]; [| |by apply elem_of_nil in Hs];
      vm_compute; reflexivity.
  - apply (bool_decide_unpack _). vm_compute. exact I.
Defined.

Lemma length_bind_le1 {A B : Type} (f : A → list B) (l : list A) :
  (∀ x, (length (f x) ≤ 1)%nat) → (length (l ≫= f) ≤ length l)%nat.
Proof.
  intros Hf. induction l as [|x l IH]; [done|].
  change ((x :: l) ≫= f) with (f x ++ (l ≫= f)).
  rewrite length_app. specialize (Hf x). cbn. lia.
Qed.

Lemma length_pairs_le {B : Type} (F : nat → list B) (n : nat) :
  (∀ i, (length (F i) ≤ n - (i + 1))%nat) →
  ∀ m k, (k + m + 1 = n)%nat →
         (2 * length (seq k m ≫= F) ≤ m * (m + 1))%nat.
Proof.
  intros HF. induction m as [|m IH]; intros k Hk; [cbn; lia|].
  change (seq k (S m) ≫= F) with (F k ++ (seq (S k) m ≫= F)).
  rewrite length_app. specialize (IH (S k)). specialize (HF k). nia.
Qed.

(** X12. A derivation pass over [n] sentences returns at most one sentence
    for each pair of positions, so at most [n (n - 1) / 2]; every sentence
    it returns has a non-empty cell set, is not yet held, and is the
    difference of two held sentences, the cells of one being among the
    cells of the other. *)
Theorem inferences_pass (st : MinesweeperAI) :
  (2 * length (inferences st)
   ≤ length (knowledge st) * (length (knowledge st) - 1))%nat
  ∧ ∀ t, t ∈ inferences st →
      cells t ≠ ∅ ∧ (t ∉ knowledge st)
      ∧ ∃ a b, a ∈ knowledge st ∧ b ∈ knowledge st ∧ cells a ⊆ cells b
               ∧ t = mkSentence (cells b ∖ cells a) (count b - count a).
Proof.
  split; [|apply inferences_cells].
  unfold inferences. cbn zeta. set (K := knowledge st).
  destruct (length K) as [|n] eqn:Hn; [cbn; lia|].
  replace (S n - 1)%nat with n by lia.
  etrans; [apply (length_pairs_le _ (S n))|]; [|lia|lia].
  intros i. etrans; [apply length_bind_le1|].
  - intros j. destruct (K !! i), (K !! j); cbn; try lia.
    unfold infer_pair, accept. repeat case_decide; cbn; lia.
  - rewrite length_seq. lia.
Qed.

(** X12, witness: two sentences, one pair, one derived sentence. *)
Lemma inferences_pass_witness :
  let st := mkAI 2 2 ∅ ∅ ∅
              [mkSentence {[(0, 0)]} 1; mkSentence {[(0, 0); (0, 1)]} 1] in
  cells (mkSentence {[(0, 1)]} 0) ≠ ∅ ∧ (mkSentence {[(0, 1)]} 0 ∉ knowledge st).
Proof.
  cbn zeta.
  destruct (inferences_pass
              (mkAI 2 2 ∅ ∅ ∅
                 [mkSentence {[(0, 0)]} 1; mkSentence {[(0, 0); (0, 1)]} 1]))
    as [_ H].
  destruct (H (mkSentence {[(0, 1)]} 0)) as (H1 & H2 & _); [|done].
  apply (bool_decide_unpack _). vm_compute. exact I.
Defined.

(** ** Ingestion *)

(** X13. The engine is sound for truthful inputs: after any sequence of
    operations whose arguments are true of a mine layout, every cell in
    [mines] is a mine of the layout, no cell in [safes] is, and every held
    sentence counts the mines among its cells. *)
Theorem engine_sound (M : gset cell) (st : MinesweeperAI) :
  truthful M st →
  mines st ⊆ M
  ∧ safes st ## M
  ∧ ∀ s, s ∈ knowledge st → count s = len (cells s ∩ M).
Proof. apply truthful_sound. Qed.

(** X13, witness: a 1x3 board with its mine at [(0,2)]; revealing [(0,1)]
    makes the engine mark [(0,2)], once [(0,0)] is revealed as well. *)
Lemma engine_sound_witness :
  mines (mkAI 1 3 {[(0, 0); (0, 1)]} {[(0, 2)]} {[(0, 0); (0, 1)]} [])
  ⊆ {[(0, 2)]}.
Proof.
  apply (engine_sound {[(0, 2)]}
           (mkAI 1 3 {[(0, 0); (0, 1)]} {[(0, 2)]} {[(0, 0); (0, 1)]} [])).
  apply (truthful_add_knowledge _ 3%nat (0, 0)
           (mkAI 1 3 {[(0, 1)]} ∅ {[(0, 1)]} [mkSentence {[(0, 0); (0, 2)]} 1])).
  - apply (truthful_add_knowledge _ 3%nat (0, 1) (init 1 3)).
    + constructor.
    + set_solver.
    + vm_compute. reflexivity.
  - set_solver.
  - vm_compute. reflexivity.
Defined.

Lemma derive_loop_frame fuel st st' :
  derive_loop fuel st = Ok st' →
  height st' = height st ∧ width st' = width st
  ∧ moves_made st' = moves_made st
  ∧ mines st ⊆ mines st' ∧ safes st ⊆ safes st'.
Proof.
  revert fuel st st'.
  apply (derive_loop_ind (λ st st',
           height st' = height st ∧ width st' = width st
           ∧ moves_made st' = moves_made st
           ∧ mines st ⊆ mines st' ∧ safes st ⊆ safes st')); auto.
  intros fuel st st1 st' _ _ Hms (H1 & H2 & H3 & H4 & H5).
  apply mines_safes_grows in Hms as (G1 & G2 & G3 & G4 & G5). cbn in *.
  split_and!; [congruence|congruence|congruence|set_solver|set_solver].
Qed.

Lemma ingest_frame st c cnt :
  height (ingest st c cnt) = height st ∧ width (ingest st c cnt) = width st
  ∧ moves_made (ingest st c cnt) = {[c]} ∪ moves_made st
  ∧ mines (ingest st c cnt) = mines st
  ∧ safes (ingest st c cnt) = {[c]} ∪ safes st.
Proof.
  rewrite ingest_eq. cbn zeta. destruct (decide _); cbn; done.
Qed.

(** X14. A call of [add_knowledge] that returns has added the cell, and
    nothing else, to [moves_made]; it has left the grid size unchanged; it
    has kept every cell of [mines] and of [safes], and the cell itself is
    in [safes]. *)
Theorem add_knowledge_frame (fuel : nat) (st st' : MinesweeperAI) (c : cell)
    (cnt : Z) :
  add_knowledge fuel st c cnt = Ok st' →
  height st' = height st ∧ width st' = width st
  ∧ moves_made st' = {[c]} ∪ moves_made st
  ∧ mines st ⊆ mines st'
  ∧ {[c]} ∪ safes st ⊆ safes st'.
Proof.
  intros H. apply add_knowledge_inv in H as (st1 & Hms & Hloop).
  destruct (ingest_frame st c cnt) as (I1 & I2 & I3 & I4 & I5).
  apply mines_safes_grows in Hms as (G1 & G2 & G3 & G4 & G5).
  apply derive_loop_frame in Hloop as (D1 & D2 & D3 & D4 & D5).
  split_and!; [congruence|congruence|congruence|set_solver|set_solver].
Qed.

(** X14, witness: revealing [(1,1)] on a new 2x2 board. *)
Lemma add_knowledge_frame_witness :
  moves_made (mkAI 2 2 {[(1, 1)]} ∅ {[(1, 1)]}
                [mkSentence {[(0, 0); (0, 1); (1, 0)]} 1])
  = {[(1, 1)]} ∪ moves_made (init 2 2).
Proof.
  destruct (add_knowledge_frame 2 (init 2 2)
              (mkAI 2 2 {[(1, 1)]} ∅ {[(1, 1)]}
                 [mkSentence {[(0, 0); (0, 1); (1, 0)]} 1]) (1, 1) 1)
    as (_ & _ & H & _); [|exact H].
  vm_compute. reflexivity.
Defined.

(** X15. When [add_knowledge] returns, propagation is complete: no held
    sentence is empty and none reports a known mine or a known safe cell,
    so a further call of [mines_safes] changes nothing. *)
Theorem add_knowledge_settles (fuel : nat) (st st' : MinesweeperAI) (c : cell)
    (cnt : Z) :
  add_knowledge fuel st c cnt = Ok st' →
  (∀ s, s ∈ knowledge st' →
        cells s ≠ ∅ ∧ known_mines s = ∅ ∧ known_safes s = ∅)
  ∧ ∀ fuel', mines_safes (S fuel') st' = Ok st'.
Proof.
  intros H. apply add_knowledge_inv in H as (st1 & Hms & Hloop).
  assert (Hfix : ∀ s, s ∈ knowledge st' →
            cells s ≠ ∅ ∧ len (cells s) ≠ count s ∧ count s ≠ 0).
  { pose proof (mines_safes_fixed _ _ _ Hms) as H1. clear Hms. revert H1.
    revert fuel st1 st' Hloop.
    apply (derive_loop_ind (λ st st',
      (∀ s, s ∈ knowledge st →
            cells s ≠ ∅ ∧ len (cells s) ≠ count s ∧ count s ≠ 0) →
      ∀ s, s ∈ knowledge st' →
            cells s ≠ ∅ ∧ len (cells s) ≠ count s ∧ count s ≠ 0)); auto.
    intros fuel st1 st2 st' _ _ Hms IH _. apply IH.
    by apply (mines_safes_fixed _ _ _ Hms). }
  split.
  - intros s Hs. destruct (Hfix s Hs) as (Hne & Hm & Hz).
    unfold known_mines, known_safes.
    rewrite decide_False by done. by rewrite decide_False by done.
  - intros fuel'. by apply mines_safes_stable.
Qed.

(** X15, witness: the state after revealing [(1,1)] on a new 2x2 board. *)
Lemma add_knowledge_settles_witness :
  mines_safes 1
    (mkAI 2 2 {[(1, 1)]} ∅ {[(1, 1)]} [mkSentence {[(0, 0); (0, 1); (1, 0)]} 1])
  = Ok (mkAI 2 2 {[(1, 1)]} ∅ {[(1, 1)]}
          [mkSentence {[(0, 0); (0, 1); (1, 0)]} 1]).
Proof.
  apply (add_knowledge_settles 2 (init 2 2) _ (1, 1) 1).
  vm_compute. reflexivity.
Defined.

(** X16. In every state the public operations produce from a new engine,
    each cell of [moves_made] is also in [safes]; so the test
    [len(self.moves_made) == len(self.safes)] that guards the derivation
    loop holds exactly when the two sets are equal, that is, when no safe
    cell is left to play. *)
Theorem moves_made_are_safe (st : MinesweeperAI) :
  reachable st →
  moves_made st ⊆ safes st
  ∧ (len (moves_made st) = len (safes st) ↔ moves_made st = safes st).
Proof.
  intros Hr.
  assert (Hsub : moves_made st ⊆ safes st).
  { induction Hr as [h w|c st _ IH|c st _ IH|fuel c cnt st st' _ IH Hadd]; cbn.
    - done.
    - done.
    - set_solver.
    - apply add_knowledge_inv in Hadd as (st1 & Hms & Hloop).
      destruct (ingest_frame st c cnt) as (_ & _ & I3 & _ & I5).
      apply mines_safes_grows in Hms as (_ & _ & G3 & _ & G5).
      apply derive_loop_frame in Hloop as (_ & _ & D3 & _ & D5).
      rewrite D3, G3, I3. set_solver. }
  split; [done|]. split.
  - intros Hlen. apply set_subseteq_size_eq; [done|]. unfold len in Hlen. lia.
  - by intros ->.
Qed.

(** X16, witness: the state after revealing [(1,1)] on a new 2x2 board. *)
Lemma moves_made_are_safe_witness :
  moves_made (mkAI 2 2 {[(1, 1)]} ∅ {[(1, 1)]}
                [mkSentence {[(0, 0); (0, 1); (1, 0)]} 1])
  ⊆ safes (mkAI 2 2 {[(1, 1)]} ∅ {[(1, 1)]}
             [mkSentence {[(0, 0); (0, 1); (1, 0)]} 1]).
Proof.
  apply moves_made_are_safe.
  apply (reach_add_knowledge 2%nat (1, 1) 1 (init 2 2)); [constructor|].
  vm_compute. reflexivity.
Defined.

(** ** Propagation resolves what is determined *)

Lemma sound_step_mines (M : gset cell) st s :
  sound M st → s ∈ knowledge st → len (cells s) = count s →
  cells s ⊆ M ∧ sound M (set_fold mark_mine st (cells s)).
Proof.
  intros Hsd Hs Hfull.
  assert (Hsub : cells s ⊆ M).
  { destruct Hsd as (_ & _ & Hk). rewrite (Hk s Hs) in Hfull.
    assert (cells s ∩ M = cells s) as <-; [|set_solver].
    apply set_subseteq_size_eq; [set_solver|]. unfold len in Hfull. lia. }
  split; [done|]. by apply sound_set_fold_mark_mine.
Qed.

Lemma sound_step_safes (M : gset cell) st s :
  sound M st → s ∈ knowledge st → count s = 0 →
  cells s ## M ∧ sound M (set_fold mark_safe st (cells s)).
Proof.
  intros Hsd Hs Hz.
  assert (Hdis : cells s ## M).
  { destruct Hsd as (_ & _ & Hk). rewrite (Hk s Hs) in Hz.
    apply len_zero_iff in Hz. set_solver. }
  split; [done|]. by apply sound_set_fold_mark_safe.
Qed.

(** In a pass over a knowledge base that agrees with a layout, a sentence
    whose cells are determined (every part of it that is left has count 0
    or a count equal to its size) has all its cells marked. *)
Lemma scan_resolves (M : gset cell) st0 st ch es (i : nat) (s : Sentence)
    (x : cell) :
  sound M st0 →
  knowledge st0 !! i = Some s → x ∈ cells s →
  (∀ t, cells t ⊆ cells s → count t = len (cells t ∩ M) →
        count t = 0 ∨ len (cells t) = count t) →
  scan st0 = (st, ch, es) →
  x ∈ safes st ∨ x ∈ mines st.
Proof.
  intros Hsd0 Hi Hx Hres Hscan.
  pose (I := λ (k : nat) (st : MinesweeperAI) (_ : bool) (_ : list Sentence),
    sound M st
    ∧ ((x ∈ safes st ∨ x ∈ mines st)
       ∨ ((k ≤ i)%nat
          ∧ ∃ t, knowledge st !! i = Some t ∧ x ∈ cells t ∧ cells t ⊆ cells s))).
  destruct (scan_ind I st0) with (st := st) (ch := ch) (es := es)
    as (_ & _ & H); [| |done|].
  - split; [done|]. right. split; [lia|]. exists s. done.
  - clear Hscan st ch es. intros k st ch es st' ch' es' Hk Hlen [Hsd H] Hv.
    inversion Hv as [Hn|t' Ht' He|t' Ht' Hne Hm|t' Ht' Hne Hz|t' Ht' Hne Hm Hz];
      subst.
    + apply lookup_ge_None in Hn. lia.
    + split; [done|]. destruct H as [?|(Hle & t & Ht & Hxt & Hts)]; [by left|].
      destruct (decide (k = i)) as [->|]; [|right; split; [lia|eauto]].
      rewrite Ht in Ht'. injection Ht' as <-. set_solver.
    + apply list_elem_of_lookup_2 in Ht' as Hin.
      destruct (sound_step_mines M st t' Hsd Hin Hm) as [_ Hsd'].
      split; [done|]. rewrite set_fold_mark_mine; cbn.
      destruct H as [[?|?]|(Hle & t & Ht & Hxt & Hts)];
        [left; by left | left; right; set_solver |].
      destruct (decide (x ∈ cells t')); [left; right; set_solver|].
      destruct (decide (k = i)) as [->|].
      { rewrite Ht in Ht'. injection Ht' as <-. done. }
      right. split; [lia|]. exists (minus_mines (cells t') t).
      rewrite list_lookup_fmap, Ht. cbn. split_and!; [done|set_solver|set_solver].
    + apply list_elem_of_lookup_2 in Ht' as Hin.
      destruct (sound_step_safes M st t' Hsd Hin Hz) as [_ Hsd'].
      split; [done|]. rewrite set_fold_mark_safe; cbn.
      destruct H as [[?|?]|(Hle & t & Ht & Hxt & Hts)];
        [left; left; set_solver | left; by right |].
      destruct (decide (x ∈ cells t')); [left; left; set_solver|].
      destruct (decide (k = i)) as [->|].
      { rewrite Ht in Ht'. injection Ht' as <-. done. }
      right. split; [lia|]. exists (minus_safes (cells t') t).
      rewrite list_lookup_fmap, Ht. cbn. split_and!; [done|set_solver|set_solver].
    + split; [done|]. destruct H as [?|(Hle & t & Ht & Hxt & Hts)]; [by left|].
      destruct (decide (k = i)) as [->|]; [|right; split; [lia|eauto]].
      rewrite Ht in Ht'. injection Ht' as <-.
      destruct Hsd as (_ & _ & Hkn).
      apply list_elem_of_lookup_2 in Ht.
      destruct (Hres t Hts (Hkn t Ht)); congruence.
  - apply lookup_lt_Some in Hi. destruct H as [?|[? _]]; [done | lia].
Qed.

Lemma mines_safes_resolves (M : gset cell) fuel st st' (s : Sentence) (x : cell) :
  sound M st → mines_safes fuel st = Ok st' →
  s ∈ knowledge st → x ∈ cells s →
  (∀ t, cells t ⊆ cells s → count t = len (cells t ∩ M) →
        count t = 0 ∨ len (cells t) = count t) →
  x ∈ safes st' ∨ x ∈ mines st'.
Proof.
  intros Hsd Hrun Hs Hx Hres.
  apply list_elem_of_lookup_1 in Hs as [i Hi].
  destruct (mines_safes_first_pass _ _ _ Hrun) as (st1 & ch & es & Hscan & Hsf & Hmn).
  destruct (scan_resolves M _ _ _ _ i s x Hsd Hi Hx Hres Hscan); set_solver.
Qed.

(** X17. Propagation is complete for what a sentence determines.  From a
    state that agrees with a mine layout, [mines_safes] ends with every
    cell of every held sentence of count 0 in [safes], and every cell of
    every held sentence whose count equals its size in [mines]. *)
Theorem propagation_complete (M : gset cell) (fuel : nat)
    (st st' : MinesweeperAI) :
  sound M st → mines_safes fuel st = Ok st' →
  ∀ s, s ∈ knowledge st →
    (count s = 0 → cells s ⊆ safes st')
    ∧ (count s = len (cells s) → cells s ⊆ mines st').
Proof.
  intros Hsd Hrun s Hs.
  pose proof (sound_mines_safes M _ _ _ Hsd Hrun) as (Hm' & Hs' & _).
  destruct Hsd as (Hm0 & Hs0 & Hk0). pose proof (Hk0 s Hs) as Hcnt.
  split.
  - intros Hz x Hx. rewrite Hz in Hcnt. symmetry in Hcnt.
    apply len_zero_iff in Hcnt.
    destruct (mines_safes_resolves M fuel st st' s x) as [?|Hmine]; auto.
    + done.
    + intros t Hts Ht. left. rewrite Ht. apply len_zero_iff. set_solver.
    + exfalso. set_solver.
  - intros Hfull x Hx.
    assert (Hsub : cells s ⊆ M).
    { assert (cells s ∩ M = cells s) as <-; [|set_solver].
      apply set_subseteq_size_eq; [set_solver|].
      unfold len in Hcnt, Hfull. lia. }
    destruct (mines_safes_resolves M fuel st st' s x) as [Hsafe|?]; auto.
    + done.
    + intros t Hts Ht. right. rewrite Ht. f_equal. set_solver.
    + exfalso. set_solver.
Qed.

(** X17, witness: the knowledge base [[{(0,0), (0,1)} = 2]] with both cells
    mined. *)
Lemma propagation_complete_witness :
  cells (mkSentence {[(0, 0); (0, 1)]} 2)
  ⊆ mines (mkAI 2 2 ∅ {[(0, 0); (0, 1)]} ∅ []).
Proof.
  destruct (propagation_complete {[(0, 0); (0, 1)]} 3
              (mkAI 2 2 ∅ ∅ ∅ [mkSentence {[(0, 0); (0, 1)]} 2])
              (mkAI 2 2 ∅ {[(0, 0); (0, 1)]} ∅ [])
           ) with (s := mkSentence {[(0, 0); (0, 1)]} 2) as [_ H].
  - split_and!; cbn; [set_solver|set_solver|].
    intros s Hs. apply list_elem_of_singleton in Hs as ->.
    vm_compute. reflexivity.
  - vm_compute. reflexivity.
  - left.
  - apply H. vm_compute. reflexivity.
Defined.

(** A neighbour that is not yet known is a cell of the sentence that
    [add_knowledge] appends. *)
Lemma ingest_sentence st c cnt (x : cell) :
  x ∈ get_neighbours st c → x ∉ mines st → x ∉ safes (ingest st c cnt) →
  ∃ s, s ∈ knowledge (ingest st c cnt)
       ∧ x ∈ cells s
       ∧ cells s ⊆ get_neighbours st c
       ∧ count s = cnt - len (get_neighbours st c ∩ mines st).
Proof.
  rewrite ingest_eq. cbn zeta.
  change (get_neighbours (mark_safe c _) c) with (get_neighbours st c).
  set (st1 := mark_safe c (set_moves_made ({[c]} ∪ moves_made st) st)).
  change (mines st1) with (mines st).
  intros Hx Hm Hs.
  assert (Hs1 : x ∉ safes st1) by (destruct (decide _); exact Hs).
  destruct (decide _) as [Hpos|Hnone].
  - eexists. split; [apply elem_of_app; right; by apply list_elem_of_singleton|].
    cbn. split_and!; [set_solver|set_solver|done].
  - exfalso. apply Hnone, len_pos_iff. set_solver.
Qed.

(** X18. A truthful count of 0 clears the neighbourhood: when the engine
    state comes from truthful operations and the board reports no mine
    next to a cell that is not a mine, a call of [add_knowledge] that
    returns leaves every neighbour of the cell in [safes]. *)
Theorem zero_count_clears_neighbours (M : gset cell) (fuel : nat)
    (st st' : MinesweeperAI) (c : cell) :
  truthful M st → c ∉ M →
  nearby_mines (height st) (width st) M c = 0 →
  add_knowledge fuel st c 0 = Ok st' →
  get_neighbours st c ⊆ safes st'.
Proof.
  intros Htr Hc Hzero Hadd. apply truthful_sound in Htr.
  pose proof (sound_ingest M st c Htr Hc) as Hsd. rewrite Hzero in Hsd.
  rewrite nearby_mines_neighbours in Hzero. apply len_zero_iff in Hzero.
  apply add_knowledge_inv in Hadd as (st1 & Hms & Hloop).
  pose proof (sound_mines_safes M _ _ _ Hsd Hms) as (Hm1 & Hs1 & _).
  apply derive_loop_frame in Hloop as (_ & _ & _ & _ & Hsafes).
  pose proof (mines_safes_grows _ _ _ Hms) as (_ & _ & _ & _ & Hgrow).
  intros x Hx. apply Hsafes.
  destruct (decide (x ∈ safes (ingest st c 0))) as [Hin|Hout]; [by apply Hgrow|].
  assert (HxM : x ∉ M) by set_solver.
  assert (Hxm : x ∉ mines st) by (destruct Htr as (Hm & _); set_solver).
  destruct (ingest_sentence st c 0 x Hx Hxm Hout) as (s & Hs & Hxs & Hsub & Hcnt).
  destruct (mines_safes_resolves M fuel (ingest st c 0) st1 s x)
    as [?|Hmine]; auto.
  - intros t Hts Ht. left. rewrite Ht. apply len_zero_iff. set_solver.
  - exfalso. set_solver.
Qed.

(** X18, witness: the centre of a 3x3 board without mines. *)
Lemma zero_count_clears_neighbours_witness :
  get_neighbours (init 3 3) (1, 1)
  ⊆ safes (mkAI 3 3 {[(1, 1)]} ∅
             ({[(1, 1)]} ∪ {[(0, 0); (0, 1); (0, 2); (1, 0); (1, 2);
                             (2, 0); (2, 1); (2, 2)]}) []).
Proof.
  apply (zero_count_clears_neighbours ∅ 3 (init 3 3) _ (1, 1)).
  - constructor.
  - set_solver.
  - vm_compute. reflexivity.
  - vm_compute. reflexivity.
Defined.

(** ** Safe moves *)

Lemma make_safe_move_in_Some order st c :
  make_safe_move_in order st = Some c → c ∈ order ∧ c ∉ moves_made st.
Proof.
  unfold make_safe_move_in. intros H.
  assert (Hin : c ∈ filter (λ c, c ∉ moves_made st) order).
  { destruct (filter _ order) as [|d l]; [done|]. injection H as ->. left. }
  apply list_elem_of_filter in Hin. tauto.
Qed.

Lemma make_safe_move_in_None order st :
  make_safe_move_in order st = None ↔ ∀ c, c ∈ order → c ∈ moves_made st.
Proof.
  unfold make_safe_move_in. split.
  - intros H c Hc. destruct (decide (c ∈ moves_made st)) as [|Hn]; [done|].
    assert (Hin : c ∈ filter (λ c, c ∉ moves_made st) order)
      by (by apply list_elem_of_filter).
    destruct (filter _ order); [by apply elem_of_nil in Hin | done].
  - intros H. destruct (filter _ order) as [|d l] eqn:E; [done|]. exfalso.
    assert (Hin : d ∈ filter (λ c, c ∉ moves_made st) order) by (rewrite E; left).
    apply list_elem_of_filter in Hin as [Hn Hd]. by apply Hn, H.
Qed.

(** X19. In whatever order the cells of [safes] are visited,
    [make_safe_move] returns a cell of [safes] that is not in
    [moves_made], and it returns [None] exactly when every cell of [safes]
    is in [moves_made]. *)
Theorem make_safe_move_spec (order : list cell) (st : MinesweeperAI) :
  (∀ c, c ∈ order ↔ c ∈ safes st) →
  (∀ c, make_safe_move_in order st = Some c →
        c ∈ safes st ∧ c ∉ moves_made st)
  ∧ (make_safe_move_in order st = None ↔ safes st ⊆ moves_made st).
Proof.
  intros Hord. split.
  - intros c H. apply make_safe_move_in_Some in H as [H1 H2].
    split; [by apply Hord | done].
  - rewrite make_safe_move_in_None. split.
    + intros H c Hc. apply H. by apply Hord.
    + intros H c Hc. apply H. by apply Hord.
Qed.

(** X19, witness: on a 1x3 board with [(0,0)] played and [(0,1)] known
    safe, visiting [(0,0)] first skips it and returns [(0,1)]. *)
Lemma make_safe_move_spec_witness :
  (0, 1) ∈ safes (mkAI 1 3 {[(0, 0)]} ∅ {[(0, 0); (0, 1)]} [])
  ∧ ((0, 1) ∉ moves_made (mkAI 1 3 {[(0, 0)]} ∅ {[(0, 0); (0, 1)]} [])).
Proof.
  destruct (make_safe_move_spec [(0, 0); (0, 1)]
              (mkAI 1 3 {[(0, 0)]} ∅ {[(0, 0); (0, 1)]} [])) as [H _].
  - intros c. cbn. rewrite !elem_of_cons, elem_of_nil. set_solver.
  - apply (H (0, 1)). vm_compute. reflexivity.
Defined.

(** X20. A safe move is safe: when the engine state comes from truthful
    operations, then in whatever order the cells of [safes] are visited,
    the cell [make_safe_move] returns is not a mine of the layout (and has
    not been played). *)
Theorem make_safe_move_avoids_mines (M : gset cell) (order : list cell)
    (st : MinesweeperAI) (c : cell) :
  truthful M st →
  (∀ c', c' ∈ order ↔ c' ∈ safes st) →
  make_safe_move_in order st = Some c →
  c ∉ M ∧ c ∉ moves_made st.
Proof.
  intros Htr Hord H. apply truthful_sound in Htr as (_ & Hs & _).
  apply make_safe_move_in_Some in H as [Hin Hnm].
  apply Hord in Hin. split; [set_solver | done].
Qed.

(** X20, witness: a 1x3 board with its mine at [(0,2)]; after [(0,0)] is
    revealed with count 0, the safe move is [(0,1)], here with [safes]
    visited from [(0,1)]. *)
Lemma make_safe_move_avoids_mines_witness :
  ((0, 1) ∉ ({[(0, 2)]} : gset cell))
  ∧ ((0, 1) ∉ moves_made (mkAI 1 3 {[(0, 0)]} ∅ {[(0, 0); (0, 1)]} [])).
Proof.
  apply (make_safe_move_avoids_mines {[(0, 2)]} [(0, 1); (0, 0)]
           (mkAI 1 3 {[(0, 0)]} ∅ {[(0, 0); (0, 1)]} []) (0, 1)).
  - apply (truthful_add_knowledge _ 3%nat (0, 0) (init 1 3)).
    + constructor.
    + set_solver.
    + vm_compute. reflexivity.
  - intros c. cbn. rewrite !elem_of_cons, elem_of_nil. set_solver.
  - vm_compute. reflexivity.
Defined.

(** ** The board of the game *)

Lemma foldl_snoc_const {A B : Type} (x : A) (l : list B) (acc : list A) :
  foldl (λ row _, row ++ [x]) acc l = acc ++ replicate (length l) x.
Proof.
  revert acc. induction l as [|y l IH]; intros acc; cbn.
  - by rewrite app_nil_r.
  - rewrite IH. rewrite <- app_assoc. done.
Qed.

(** The two loops that build the field give [h] rows of [w] entries
    [False]; a size that is not positive gives no row, or empty rows. *)
Lemma empty_board_replicate h w :
  empty_board h w = replicate (Z.to_nat h) (replicate (Z.to_nat w) false).
Proof.
  unfold empty_board. rewrite !foldl_snoc_const. cbn.
  unfold zrange. rewrite !length_seqZ. do 2 f_equal; lia.
Qed.

Lemma board_of_empty h w : board_of h w ∅ (empty_board h w).
Proof.
  rewrite empty_board_replicate. split_and!.
  - apply length_replicate.
  - intros row Hrow. apply elem_of_replicate in Hrow as [-> _].
    apply length_replicate.
  - intros i j Hi Hj. exists (replicate (Z.to_nat w) false). split.
    + apply lookup_replicate_2. lia.
    + rewrite bool_decide_eq_false_2 by set_solver.
      apply lookup_replicate_2. lia.
  - intros c Hc. set_solver.
Qed.

Lemma py_index_nonneg {A : Type} (l : list A) (i : Z) :
  0 ≤ i → py_index l i = l !! Z.to_nat i.
Proof. intros. unfold py_index. by rewrite decide_True. Qed.

Lemma py_index_neg {A : Type} (l : list A) (i : Z) :
  - Z.of_nat (length l) ≤ i < 0 →
  py_index l i = l !! Z.to_nat (Z.of_nat (length l) + i).
Proof.
  intros. unfold py_index. rewrite decide_False by lia.
  by rewrite decide_True by lia.
Qed.

Lemma py_index_out {A : Type} (l : list A) (i : Z) :
  i < - Z.of_nat (length l) ∨ Z.of_nat (length l) ≤ i → py_index l i = None.
Proof.
  intros [H|H]; unfold py_index.
  - rewrite decide_False by lia. by rewrite decide_False by lia.
  - rewrite decide_True by lia. apply lookup_ge_None. lia.
Qed.

(** Setting a false entry of the board adds its cell to the mines. *)
Lemma board_of_insert (h w : Z) (ms : gset cell) (b : list (list bool))
    (I J : nat) (row : list bool) :
  board_of h w ms b →
  b !! I = Some row → row !! J = Some false →
  board_of h w ({[(Z.of_nat I, Z.of_nat J)]} ∪ ms)
           (<[I := <[J := true]> row]> b).
Proof.
  intros (Hlen & Hrows & Hcons & Hgrid) HI HJ.
  pose proof (lookup_lt_Some _ _ _ HI) as HIlt.
  pose proof (lookup_lt_Some _ _ _ HJ) as HJlt.
  assert (Hrow : length row = Z.to_nat w)
    by (apply Hrows; by eapply list_elem_of_lookup_2).
  split_and!.
  - by rewrite length_insert.
  - intros r Hr. apply list_elem_of_lookup_1 in Hr as [k Hk].
    destruct (decide (I = k)) as [->|Hne].
    + rewrite list_lookup_insert_eq in Hk by done. injection Hk as <-.
      by rewrite length_insert.
    + rewrite list_lookup_insert_ne in Hk by done.
      apply Hrows. by eapply list_elem_of_lookup_2.
  - intros i j Hi Hj. destruct (Hcons i j Hi Hj) as (r & Hr & Hrj).
    destruct (decide (I = Z.to_nat i)) as [->|Hne].
    + rewrite list_lookup_insert_eq by done. eexists. split; [done|].
      assert (r = row) as -> by congruence.
      destruct (decide (J = Z.to_nat j)) as [->|Hnj].
      * rewrite list_lookup_insert_eq by done. f_equal. symmetry.
        apply bool_decide_eq_true_2. apply elem_of_union. left.
        apply elem_of_singleton. f_equal; lia.
      * rewrite list_lookup_insert_ne by done. rewrite Hrj. f_equal.
        apply bool_decide_ext. rewrite elem_of_union, elem_of_singleton.
        split; [tauto|]. intros [[= ? ?]|?]; [lia|done].
    + rewrite list_lookup_insert_ne by done. exists r. split; [done|].
      rewrite Hrj. f_equal.
      apply bool_decide_ext. rewrite elem_of_union, elem_of_singleton.
      split; [tauto|]. intros [[= ? ?]|?]; [lia|done].
  - intros c Hc. apply elem_of_union in Hc as [Hc|Hc]; [|by apply Hgrid].
    apply elem_of_singleton in Hc as ->. cbn. lia.
Qed.

(** What the loop of [__init__] keeps: the board and the set of mines
    agree, and the game it ends with has the number of mines asked for. *)
Lemma place_mines_built (rb : nat → nat → nat) (fuel k : nat) (h w n : Z)
    (ms : gset cell)
    (b : list (list bool)) (g : Minesweeper) :
  board_of h w ms b →
  place_mines rb fuel k h w n ms b = Built g →
  game_height g = h ∧ game_width g = w
  ∧ board_of h w (game_mines g) (board g)
  ∧ len (game_mines g) = n
  ∧ ms ⊆ game_mines g
  ∧ mines_found g = ∅.
Proof.
  revert k ms b. induction fuel as [|fuel IH]; intros k ms b Hb H; [done|].
  cbn [place_mines] in H. destruct (decide (len ms ≠ n)) as [Hn|Hn].
  - destruct (decide (h ≤ 0)); [done|]. destruct (decide (w ≤ 0)); [done|].
    rewrite py_index_nonneg in H by lia. rewrite Nat2Z.id in H.
    destruct (b !! _) as [row|] eqn:Hrow; [|done].
    rewrite py_index_nonneg in H by lia. rewrite Nat2Z.id in H.
    destruct (row !! _) as [[|]|] eqn:Hcell; [| |done].
    + by apply (IH _ _ _ Hb H).
    + pose proof (board_of_insert _ _ _ _ _ _ _ Hb Hrow Hcell) as Hb'.
      destruct (IH _ _ _ Hb' H) as (? & ? & ? & ? & ? & ?).
      split_and!; auto. set_solver.
  - injection H as <-. cbn. apply dec_stable in Hn. split_and!; auto.
Qed.

(** X21. A game that [Minesweeper.__init__] returns has the height and
    width asked for, a board of that many rows and columns whose true
    entries are exactly the cells of [mines], the number of mines asked
    for, every mine inside the grid, and no mine found. *)
Theorem Minesweeper_init_built (randbelow : nat → nat → nat) (fuel : nat)
    (h w n : Z) (g : Minesweeper) :
  Minesweeper_init randbelow fuel h w n = Built g →
  game_height g = h ∧ game_width g = w
  ∧ board_of h w (game_mines g) (board g)
  ∧ len (game_mines g) = n
  ∧ mines_found g = ∅.
Proof.
  intros H. unfold Minesweeper_init in H.
  destruct (place_mines_built _ _ _ _ _ _ _ _ _ (board_of_empty h w) H)
    as (? & ? & ? & ? & _ & ?).
  done.
Qed.

(** X21, witness: a 2x2 game with one mine; the random source draws row 1
    and column 0. *)
Lemma Minesweeper_init_built_witness :
  len (game_mines (mkGame 2 2 {[(1, 0)]} [[false; false]; [true; false]] ∅)) = 1.
Proof.
  destruct (Minesweeper_init_built (λ k _, (S k) `mod` 2)%nat 3 2 2 1
              (mkGame 2 2 {[(1, 0)]} [[false; false]; [true; false]] ∅))
    as (_ & _ & _ & H & _); [|exact H].
  vm_compute. reflexivity.
Defined.

Lemma is_mine_in_grid (g : Minesweeper) (h w : Z) (ms : gset cell) (i j : Z) :
  board_of h w ms (board g) → 0 ≤ i < h → 0 ≤ j < w →
  is_mine g (i, j) = Some (bool_decide ((i, j) ∈ ms)).
Proof.
  intros (_ & _ & Hcons & _) Hi Hj. destruct (Hcons i j Hi Hj) as (row & Hr & Hc).
  unfold is_mine. cbn. rewrite py_index_nonneg by lia. rewrite Hr. cbn.
  by rewrite py_index_nonneg by lia.
Qed.

Lemma sample_board_of :
  board_of 2 2 {[(1, 0)]} [[false; false]; [true; false]].
Proof.
  pose proof (place_mines_built (λ k _, (S k) `mod` 2)%nat 3 0 2 2 1 ∅
                (empty_board 2 2)
                (mkGame 2 2 {[(1, 0)]} [[false; false]; [true; false]] ∅)
                (board_of_empty 2 2)) as H.
  destruct H as (_ & _ & H & _); [|exact H].
  vm_compute. reflexivity.
Qed.

(** X22. [Minesweeper.is_mine] indexes the board the way Python does.  For
    a cell of the grid it tells whether the cell is in [mines]; a row or
    column index that is negative, down to minus the height or width,
    does not fail but reads the board from the other end; any other index
    raises [IndexError]. *)
Theorem is_mine_indexing (g : Minesweeper) (h w : Z) (ms : gset cell) :
  board_of h w ms (board g) →
  (∀ i j, 0 ≤ i < h → 0 ≤ j < w →
     is_mine g (i, j) = Some (bool_decide ((i, j) ∈ ms))
     ∧ is_mine g (i - h, j) = is_mine g (i, j)
     ∧ is_mine g (i, j - w) = is_mine g (i, j)
     ∧ is_mine g (i - h, j - w) = is_mine g (i, j))
  ∧ (∀ i j, 0 ≤ h → i < - h ∨ h ≤ i → is_mine g (i, j) = None)
  ∧ (∀ i j, 0 ≤ i < h → 0 ≤ w → j < - w ∨ w ≤ j → is_mine g (i, j) = None).
Proof.
  intros Hb. pose proof Hb as (Hlen & Hrows & Hcons & _). split_and!.
  - intros i j Hi Hj. split; [by eapply is_mine_in_grid|].
    destruct (Hcons i j Hi Hj) as (row & Hr & Hc).
    assert (Hrow : length row = Z.to_nat w)
      by (apply Hrows; by eapply list_elem_of_lookup_2).
    assert (Hi' : py_index (board g) (i - h) = Some row).
    { rewrite py_index_neg by lia. rewrite <- Hr. f_equal. lia. }
    assert (Hi0 : py_index (board g) i = Some row)
      by (by rewrite py_index_nonneg by lia).
    assert (Hj' : py_index row (j - w) = py_index row j).
    { rewrite py_index_neg by lia. rewrite py_index_nonneg by lia. f_equal. lia. }
    unfold is_mine. cbn. rewrite Hi', Hi0. cbn. by rewrite Hj'.
  - intros i j Hh Hi. unfold is_mine. cbn.
    rewrite py_index_out by lia. done.
  - intros i j Hi Hw Hj.
    destruct (lookup_lt_is_Some_2 (board g) (Z.to_nat i)) as [row Hr]; [lia|].
    assert (Hrow : length row = Z.to_nat w)
      by (apply Hrows; by eapply list_elem_of_lookup_2).
    unfold is_mine. cbn. rewrite py_index_nonneg by lia. rewrite Hr. cbn.
    apply py_index_out. lia.
Qed.

(** X22, witness: on the 2x2 board with its mine at [(1,0)], the index
    [-1] reads row 1. *)
Lemma is_mine_indexing_witness :
  is_mine (mkGame 2 2 {[(1, 0)]} [[false; false]; [true; false]] ∅) (-1, 0)
  = is_mine (mkGame 2 2 {[(1, 0)]} [[false; false]; [true; false]] ∅) (1, 0).
Proof.
  destruct (is_mine_indexing
              (mkGame 2 2 {[(1, 0)]} [[false; false]; [true; false]] ∅)
              2 2 {[(1, 0)]}) as [H _].
  - exact sample_board_of.
  - destruct (H 1 0) as (_ & H1 & _); [lia|lia|]. exact H1.
Defined.

Lemma grid_cells_bound (h w : Z) (ms : gset cell) :
  0 ≤ h → 0 ≤ w →
  (∀ c, c ∈ ms → 0 ≤ c.1 < h ∧ 0 ≤ c.2 < w) →
  len ms ≤ h * w.
Proof.
  intros Hh Hw Hgrid.
  set (box := i ← zrange 0 h; j ← zrange 0 w; [(i, j)]).
  assert (Hsub : ms ⊆ list_to_set box).
  { intros c Hc. apply elem_of_list_to_set. unfold box.
    rewrite elem_of_box, !elem_of_zrange. by apply Hgrid. }
  apply subseteq_size in Hsub.
  pose proof (size_list_to_set (C := gset cell) box) as Hbox.
  assert (Hlen : length box = (Z.to_nat h * Z.to_nat w)%nat).
  { unfold box. rewrite length_box. unfold zrange. rewrite !length_seqZ.
    f_equal; lia. }
  rewrite Hbox in Hsub by (unfold box; apply NoDup_box; apply NoDup_seqZ).
  unfold len. nia.
Qed.

(** With a random source that draws below its argument, the reads of the
    board in the loop of [__init__] stay within the board. *)
Lemma place_mines_step (rb : nat → nat → nat) (k : nat) (h w : Z)
    (ms : gset cell) (b : list (list bool)) :
  (∀ k m, (0 < m)%nat → (rb k m < m)%nat) →
  board_of h w ms b → 0 < h → 0 < w →
  ∃ row v, py_index b (Z.of_nat (rb k (Z.to_nat h))) = Some row
           ∧ b !! rb k (Z.to_nat h) = Some row
           ∧ py_index row (Z.of_nat (rb (S k) (Z.to_nat w))) = Some v
           ∧ row !! rb (S k) (Z.to_nat w) = Some v.
Proof.
  intros Hrb (Hlen & Hrows & _ & _) Hh Hw.
  destruct (lookup_lt_is_Some_2 b (rb k (Z.to_nat h))) as [row Hr].
  { rewrite Hlen. apply Hrb. lia. }
  assert (Hrow : length row = Z.to_nat w)
    by (apply Hrows; by eapply list_elem_of_lookup_2).
  destruct (lookup_lt_is_Some_2 row (rb (S k) (Z.to_nat w))) as [v Hv].
  { rewrite Hrow. apply Hrb. lia. }
  exists row, v. rewrite !py_index_nonneg by lia. rewrite !Nat2Z.id. done.
Qed.

Lemma place_mines_no_index_error (rb : nat → nat → nat) (fuel k : nat)
    (h w n : Z) (ms : gset cell) (b : list (list bool)) :
  (∀ k m, (0 < m)%nat → (rb k m < m)%nat) →
  board_of h w ms b →
  place_mines rb fuel k h w n ms b ≠ BoardIndexError.
Proof.
  intros Hrb. revert k ms b. induction fuel as [|fuel IH]; intros k ms b Hb; [done|].
  cbn [place_mines]. destruct (decide (len ms ≠ n)); [|done].
  destruct (decide (h ≤ 0)); [done|]. destruct (decide (w ≤ 0)); [done|].
  destruct (place_mines_step rb k h w ms b Hrb Hb) as (row & v & -> & Hr & -> & Hv);
    [lia|lia|].
  destruct v; [by apply IH|]. apply IH. rewrite !Nat2Z.id.
  by apply board_of_insert.
Qed.

Lemma place_mines_diverges (rb : nat → nat → nat) (fuel k : nat)
    (h w n : Z) (ms : gset cell) (b : list (list bool)) :
  (∀ k m, (0 < m)%nat → (rb k m < m)%nat) →
  0 < h → 0 < w → n < 0 ∨ h * w < n →
  board_of h w ms b →
  place_mines rb fuel k h w n ms b = NoFuel.
Proof.
  intros Hrb Hh Hw Hn. revert k ms b.
  induction fuel as [|fuel IH]; intros k ms b Hb; [done|].
  cbn [place_mines].
  assert (Hne : len ms ≠ n).
  { pose proof (len_nonneg ms). destruct Hb as (_ & _ & _ & Hgrid).
    pose proof (grid_cells_bound h w ms ltac:(lia) ltac:(lia) Hgrid). lia. }
  rewrite decide_True by done.
  rewrite decide_False by lia. rewrite decide_False by lia.
  destruct (place_mines_step rb k h w ms b Hrb Hb) as (row & v & -> & Hr & -> & Hv);
    [lia|lia|].
  destruct v; [by apply IH|]. apply IH. rewrite !Nat2Z.id.
  by apply board_of_insert.
Qed.

(** X23. How [Minesweeper.__init__] can end.  Asking for no mine gives the
    empty field at once, whatever the sizes.  Asking for mines on a board
    whose height or width is not positive raises the [ValueError] of
    [random.randrange].  On a board of positive size, with a random source
    that draws below its argument, the board is never indexed out of
    range, and asking for a negative number of mines or for more mines
    than the board has cells never returns. *)
Theorem Minesweeper_init_outcomes (randbelow : nat → nat → nat) (h w n : Z) :
  (∀ fuel, Minesweeper_init randbelow (S fuel) h w 0
           = Built (mkGame h w ∅ (empty_board h w) ∅))
  ∧ (∀ fuel, n ≠ 0 → h ≤ 0 ∨ w ≤ 0 →
       Minesweeper_init randbelow (S fuel) h w n = RandValueError)
  ∧ ((∀ k m, (0 < m)%nat → (randbelow k m < m)%nat) →
     (∀ fuel, Minesweeper_init randbelow fuel h w n ≠ BoardIndexError)
     ∧ (0 < h → 0 < w → n < 0 ∨ h * w < n →
        ∀ fuel, Minesweeper_init randbelow fuel h w n = NoFuel)).
Proof.
  unfold Minesweeper_init. split_and!.
  - intros fuel. cbn [place_mines]. by rewrite decide_False by (intros H; by apply H).
  - intros fuel Hn Hsize. cbn [place_mines].
    rewrite decide_True by (unfold len; rewrite size_empty; cbn; lia).
    destruct (decide (h ≤ 0)); [done|]. by rewrite decide_True by lia.
  - intros Hrb. split.
    + intros fuel. apply place_mines_no_index_error; [done|].
      apply board_of_empty.
    + intros Hh Hw Hn fuel. apply place_mines_diverges; auto.
      apply board_of_empty.
Qed.

(** X23, witness: five mines do not fit a 2x2 board. *)
Lemma Minesweeper_init_outcomes_witness :
  Minesweeper_init (λ _ _, 0%nat) 100 2 2 5 = NoFuel.
Proof.
  destruct (Minesweeper_init_outcomes (λ _ _, 0%nat) 2 2 5) as (_ & _ & H).
  destruct H as [_ H]; [intros k m Hm; exact Hm|].
  apply H; lia.
Defined.

(** The loop body of [nearby_mines] on the board computes what the body
    over the set of mines does. *)
Lemma foldl_board_count (g : Minesweeper) (h w : Z) (ms : gset cell)
    (c : cell) (l : list cell) (n : Z) :
  game_height g = h → game_width g = w → board_of h w ms (board g) →
  foldl (λ (acc : option Z) (p : cell),
           cnt ← acc;
           if decide (p = c) then Some cnt
           else if decide (0 ≤ p.1 < game_height g ∧ 0 ≤ p.2 < game_width g)
                then b ← is_mine g p; Some (if b : bool then cnt + 1 else cnt)
                else Some cnt) (Some n) l
  = Some (foldl (λ (cnt : Z) (p : cell),
           if decide (p = c) then cnt
           else if decide (0 ≤ p.1 < h ∧ 0 ≤ p.2 < w)
                then (if decide (p ∈ ms) then cnt + 1 else cnt)
                else cnt) n l).
Proof.
  intros -> -> Hb. revert n. induction l as [|[i j] l IH]; intros n; [done|].
  cbn [foldl mbind option_bind]. rewrite <- IH. f_equal.
  destruct (decide ((i, j) = c)); [done|]. cbn [fst snd].
  destruct (decide _) as [[Hi Hj]|]; [|done].
  rewrite (is_mine_in_grid g _ _ ms i j Hb Hi Hj). cbn.
  rewrite bool_decide_decide. by destruct (decide ((i, j) ∈ ms)).
Qed.

(** X24. On a game whose board and set of mines agree, as [__init__]
    leaves them, [Minesweeper.nearby_mines] reads every entry it needs
    without [IndexError] and returns the number of mines among the cells
    of the grid next to the cell: the count written [nearby_mines] above,
    which depends on the set of mines only. *)
Theorem Minesweeper_nearby_mines_spec (g : Minesweeper) (c : cell) :
  board_of (game_height g) (game_width g) (game_mines g) (board g) →
  Minesweeper_nearby_mines g c
  = Some (nearby_mines (game_height g) (game_width g) (game_mines g) c).
Proof.
  intros Hb. unfold Minesweeper_nearby_mines, nearby_mines.
  pose (fO := λ (acc : option Z) (p : cell),
           cnt ← acc;
           if decide (p = c) then Some cnt
           else if decide (0 ≤ p.1 < game_height g ∧ 0 ≤ p.2 < game_width g)
                then b ← is_mine g p; Some (if b : bool then cnt + 1 else cnt)
                else Some cnt).
  pose (fC := λ (cnt : Z) (p : cell),
           if decide (p = c) then cnt
           else if decide (0 ≤ p.1 < game_height g ∧ 0 ≤ p.2 < game_width g)
                then (if decide (p ∈ game_mines g) then cnt + 1 else cnt)
                else cnt).
  rewrite (nested_foldl fO), (nested_foldl fC).
  by apply foldl_board_count.
Qed.

(** X24, witness: the 2x2 board with its mine at [(1,0)]; the cell [(0,0)]
    has one mine next to it. *)
Lemma Minesweeper_nearby_mines_spec_witness :
  Minesweeper_nearby_mines
    (mkGame 2 2 {[(1, 0)]} [[false; false]; [true; false]] ∅) (0, 0)
  = Some (nearby_mines 2 2 {[(1, 0)]} (0, 0)).
Proof.
  pose proof (Minesweeper_nearby_mines_spec
                (mkGame 2 2 {[(1, 0)]} [[false; false]; [true; false]] ∅) (0, 0)
                sample_board_of) as H.
  cbn [game_height game_width game_mines] in H. exact H.
Defined.
